(** * Logic circuit simulator: tokenizer, parser, circuit builder,
      evaluator and truth-table generator.

    Shallow embedding of [logic_parser.py] and [circuit_generator.py].
    Python strings are modelled by [string] (a sequence of 8-bit characters;
    the regular expressions of the tokenizer only accept ASCII characters, so
    every byte above 127 behaves like any other unrecognised character).
    The interpreter's recursion limit is not modelled. *)

From Stdlib Require Import Ascii String NArith.
From stdpp Require Import gmap strings list sorting.

(** ** Characters and the three regular expressions of [next_token] *)

Module Regex.

Definition code (c : ascii) : nat := nat_of_ascii c.

(** [[a-zA-Z_]] *)
Definition ident_start (c : ascii) : bool :=
  (((65 <=? code c) && (code c <=? 90))
   || ((97 <=? code c) && (code c <=? 122))
   || (code c =? 95))%nat.

(** [[a-zA-Z0-9_]] *)
Definition ident_char (c : ascii) : bool :=
  ident_start c || ((48 <=? code c) && (code c <=? 57))%nat.

(** [expression[pos:]]: slicing never fails, it yields the empty string
    when [pos] is past the end. *)
Fixpoint slice_from (n : nat) (s : string) : string :=
  match n, s with
  | 0, _ => s
  | S _, EmptyString => EmptyString
  | S n', String _ s' => slice_from n' s'
  end.

(** Greedy [[a-zA-Z0-9_]*]: the longest prefix made of identifier
    characters. *)
Fixpoint ident_tail (s : string) : string :=
  match s with
  | String c s' => if ident_char c then String c (ident_tail s') else EmptyString
  | EmptyString => EmptyString
  end.

(** [re.match(r'\(|\)', s)]: the matched text, if any. *)
Definition match_paren (s : string) : option string :=
  match s with
  | String "(" _ => Some "("
  | String ")" _ => Some ")"
  | _ => None
  end.

(** [re.match(r'AND|OR|NOT', s)]: the alternatives are tried from left to
    right at the start of [s]; nothing constrains what follows them. *)
Definition match_keyword (s : string) : option string :=
  if String.prefix "AND" s then Some "AND"
  else if String.prefix "OR" s then Some "OR"
  else if String.prefix "NOT" s then Some "NOT"
  else None.

(** [re.match(r'[a-zA-Z_][a-zA-Z0-9_]*', s)] *)
Definition match_identifier (s : string) : option string :=
  match s with
  | String c s' => if ident_start c then Some (String c (ident_tail s')) else None
  | EmptyString => None
  end.

(** Number of iterations of the loop that skips blanks: the number of
    leading [' '] characters. *)
Fixpoint leading_spaces (s : string) : nat :=
  match s with
  | String " " s' => S (leading_spaces s')
  | _ => 0
  end.

End Regex.

(** ** Tokens and parse tree *)

(** A token is the dictionary [{'type': ..., 'value': ...}]; the ['value']
    key exists for identifiers only. *)
Inductive Token : Type :=
| TOK_LPAREN
| TOK_RPAREN
| TOK_AND
| TOK_OR
| TOK_NOT
| TOK_IDENTIFIER (value : string).

(** Parse-tree nodes are the dictionaries built by [expr], [term] and
    [factor]; the constructor is the ['type'] entry. *)
Inductive Node : Type :=
| IDENTIFIER (value : string)
| NOT (right : Node)
| AND (left right : Node)
| OR (left right : Node).

#[global] Instance Token_eq_dec : EqDecision Token.
Proof. solve_decision. Defined.

#[global] Instance Node_eq_dec : EqDecision Node.
Proof. solve_decision. Defined.

(** ** The parser object and its monad *)

(** The three fields set by [LogicParser.__init__]. *)
Record LogicParser : Type := mkLogicParser {
  expression : string;
  pos : nat;
  current_token : option Token
}.

(** What a method call does: it returns, raises [Exception(msg)], or the
    model runs out of fuel. *)
Inductive outcome (A : Type) : Type :=
| Return (a : A)
| Raise (msg : string)
| Diverge.
Arguments Return {A} a.
Arguments Raise {A} msg.
Arguments Diverge {A}.

(** Methods thread the parser object; the object is still there after an
    exception, with the fields it had when the exception was raised. *)
Definition M (A : Type) : Type := LogicParser → outcome A * LogicParser.

Definition ret {A} (a : A) : M A := λ self, (Return a, self).
Definition raise {A} (msg : string) : M A := λ self, (Raise msg, self).
Definition diverge {A} : M A := λ self, (Diverge, self).
Definition bind {A B} (m : M A) (k : A → M B) : M B :=
  λ self,
    match m self with
    | (Return a, self') => k a self'
    | (Raise msg, self') => (Raise msg, self')
    | (Diverge, self') => (Diverge, self')
    end.

Notation "'let*' x ':=' m 'in' k" := (bind m (λ x, k))
  (at level 10, x name, m at level 100, k at level 200, only parsing).
Notation "m >> k" := (bind m (λ _, k))
  (at level 65, right associativity, only parsing).

Definition token_of_keyword (group : string) : Token :=
  if decide (group = "AND") then TOK_AND
  else if decide (group = "OR") then TOK_OR
  else TOK_NOT.

(** [LogicParser.next_token] *)
Definition next_token : M unit := λ self,
  let e := expression self in
  let p := pos self + Regex.leading_spaces (Regex.slice_from (pos self) e) in
  if decide (String.length e ≤ p)%nat then
    (Return (), mkLogicParser e p None)
  else
    let rest := Regex.slice_from p e in
    match Regex.match_paren rest with
    | Some group =>
        (Return (),
         mkLogicParser e (p + String.length group)
           (Some (if decide (group = "(") then TOK_LPAREN else TOK_RPAREN)))
    | None =>
        match Regex.match_keyword rest with
        | Some group =>
            (Return (),
             mkLogicParser e (p + String.length group)
               (Some (token_of_keyword group)))
        | None =>
            match Regex.match_identifier rest with
            | Some group =>
                (Return (),
                 mkLogicParser e (p + String.length group)
                   (Some (TOK_IDENTIFIER group)))
            | None => (Raise "Invalid character", mkLogicParser e p (current_token self))
            end
        end
    end.

(** The [while] loop of [term]; [factor] is the method it calls and [k]
    bounds the number of iterations. *)
Fixpoint term_loop (factor : M Node) (k : nat) (left : Node) : M Node :=
  λ self,
    match current_token self with
    | Some TOK_AND =>
        match k with
        | 0 => (Diverge, self)
        | S k' =>
            (next_token >>
             let* right := factor in
             term_loop factor k' (AND left right)) self
        end
    | _ => (Return left, self)
    end.

Definition term_with (factor : M Node) (k : nat) : M Node :=
  let* left := factor in term_loop factor k left.

(** The [while] loop of [expr]. *)
Fixpoint expr_loop (term : M Node) (k : nat) (left : Node) : M Node :=
  λ self,
    match current_token self with
    | Some TOK_OR =>
        match k with
        | 0 => (Diverge, self)
        | S k' =>
            (next_token >>
             let* right := term in
             expr_loop term k' (OR left right)) self
        end
    | _ => (Return left, self)
    end.

Definition expr_with (term : M Node) (k : nat) : M Node :=
  let* left := term in expr_loop term k left.

(** [LogicParser.factor]; the fuel bounds the nesting of calls. *)
Fixpoint factor (fuel : nat) : M Node :=
  match fuel with
  | 0 => diverge
  | S n =>
      λ self,
        match current_token self with
        | Some TOK_NOT =>
            (next_token >>
             let* right := factor n in
             ret (NOT right)) self
        | Some TOK_LPAREN =>
            (next_token >>
             let* node := expr_with (term_with (factor n) n) n in
             (λ self',
                match current_token self' with
                | Some TOK_RPAREN => (next_token >> ret node) self'
                | _ => (Raise "Missing closing parenthesis", self')
                end)) self
        | Some (TOK_IDENTIFIER value) =>
            (next_token >> ret (IDENTIFIER value)) self
        | _ => (Raise "Invalid factor", self)
        end
  end.

(** [LogicParser.term] and [LogicParser.expr] *)
Definition term (fuel : nat) : M Node := term_with (factor fuel) fuel.
Definition expr (fuel : nat) : M Node := expr_with (term fuel) fuel.

(** [LogicParser(expression)] *)
Definition new_parser (e : string) : LogicParser := mkLogicParser e 0 None.

(** [LogicParser.parse], run with a given fuel on a given parser object. *)
Definition parse_with (fuel : nat) : M Node := next_token >> expr fuel.

(** Every call consumes a token before it recurses, so one unit of fuel per
    character (and one more) is enough: see [parse_terminates]. *)
Definition parse_fuel (e : string) : nat := S (String.length e).

(** [LogicParser(e).parse()], together with the parser object it leaves. *)
Definition run_parse (e : string) : outcome Node * LogicParser :=
  parse_with (parse_fuel e) (new_parser e).

Definition parse (e : string) : outcome Node := fst (run_parse e).

(** ** Gates and their evaluation *)

Module Gate.

(** A [Gate] object: [gate_type] is the constructor, [gate_id] the number
    given by the builder, and [inputs] holds the variable name of an
    ['INPUT'] gate or the operand gates of the other types. *)
Inductive t : Type :=
| Input (gate_id : nat) (var_name : string)
| Not (gate_id : nat) (input_gate : t)
| And (gate_id : nat) (left_gate right_gate : t)
| Or (gate_id : nat) (left_gate right_gate : t).

Definition gate_id (g : t) : nat :=
  match g with
  | Input i _ | Not i _ | And i _ _ | Or i _ _ => i
  end.


(** [Gate.evaluate], instrumented: next to the value it returns the
    variables looked up with [variable_values.get], in the order of the
    calls. An operand that is not evaluated leaves no lookup. *)
Fixpoint evaluate_log (g : t) (variable_values : gmap string bool)
  : bool * list string :=
  match g with
  | Input _ var_name =>
      (default false (variable_values !! var_name), [var_name])
  | Not _ a =>
      let '(v, log) := evaluate_log a variable_values in
      (negb v, log)
  | And _ a b =>
      let '(left_value, log_l) := evaluate_log a variable_values in
      let '(right_value, log_r) := evaluate_log b variable_values in
      (left_value && right_value, log_l ++ log_r)
  | Or _ a b =>
      let '(left_value, log_l) := evaluate_log a variable_values in
      let '(right_value, log_r) := evaluate_log b variable_values in
      (left_value || right_value, log_l ++ log_r)
  end.

Definition evaluate (g : t) (variable_values : gmap string bool) : bool :=
  fst (evaluate_log g variable_values).

Definition lookups (g : t) (variable_values : gmap string bool) : list string :=
  snd (evaluate_log g variable_values).

(** All the gates of the tree rooted at [g], operands first. *)
Fixpoint subgates (g : t) : list t :=
  match g with
  | Input _ _ => [g]
  | Not _ a => subgates a ++ [g]
  | And _ a b | Or _ a b => subgates a ++ subgates b ++ [g]
  end.

Definition is_input (g : t) : bool :=
  match g with Input _ _ => true | _ => false end.

(** The [variable] field of an input gate. *)
Definition variable (g : t) : option string :=
  match g with Input _ v => Some v | _ => None end.

End Gate.

#[global] Instance Gate_eq_dec : EqDecision Gate.t.
Proof. solve_decision. Defined.

(** ** The circuit generator *)

(** The mutable fields of a [CircuitGenerator]. *)
Record CircuitGenerator : Type := mkCircuitGenerator {
  parse_tree : Node;
  gates : list Gate.t;
  input_variables : gset string;
  gate_counter : nat
}.

(** [CircuitGenerator(parse_tree)] *)
Definition new_generator (tree : Node) : CircuitGenerator :=
  mkCircuitGenerator tree [] ∅ 0.

(** The three statements that end every branch of [_build_circuit]:
    number the gate, bump the counter, append the gate. *)
Definition register (mk : nat → Gate.t) (self : CircuitGenerator)
  : Gate.t * CircuitGenerator :=
  let gate := mk (gate_counter self) in
  (gate,
   mkCircuitGenerator (parse_tree self) (gates self ++ [gate])
     (input_variables self) (S (gate_counter self))).

(** [CircuitGenerator._build_circuit] *)
Fixpoint _build_circuit (node : Node) (self : CircuitGenerator)
  : Gate.t * CircuitGenerator :=
  match node with
  | IDENTIFIER var_name =>
      let self := mkCircuitGenerator (parse_tree self) (gates self)
                    ({[var_name]} ∪ input_variables self) (gate_counter self) in
      register (λ i, Gate.Input i var_name) self
  | NOT right_node =>
      let '(input_gate, self) := _build_circuit right_node self in
      register (λ i, Gate.Not i input_gate) self
  | AND left_node right_node =>
      let '(left_gate, self) := _build_circuit left_node self in
      let '(right_gate, self) := _build_circuit right_node self in
      register (λ i, Gate.And i left_gate right_gate) self
  | OR left_node right_node =>
      let '(left_gate, self) := _build_circuit left_node self in
      let '(right_gate, self) := _build_circuit right_node self in
      register (λ i, Gate.Or i left_gate right_gate) self
  end.

(** The dictionary returned by [generate]. *)
Record Circuit : Type := mkCircuit {
  circuit_gates : list Gate.t;
  output_gate : Gate.t;
  inputs : list string
}.

(** [sorted(list(s))] on a set of strings: Python compares strings
    character by character, which is [String.le]. *)
Definition sorted (s : gset string) : list string :=
  merge_sort String.le (elements s).

(** [CircuitGenerator.generate] *)
Definition generate (self : CircuitGenerator) : Circuit * CircuitGenerator :=
  let '(out, self) := _build_circuit (parse_tree self) self in
  (mkCircuit (gates self) out (sorted (input_variables self)), self).

(** [CircuitGenerator(tree).generate()] *)
Definition build (tree : Node) : Circuit := fst (generate (new_generator tree)).

(** ** Truth table *)

(** Binary digits of a positive number, most significant first, in front
    of [acc]. *)
Fixpoint binary_digits (p : positive) (acc : string) : string :=
  match p with
  | xH => String "1" acc
  | xO p' => binary_digits p' (String "0" acc)
  | xI p' => binary_digits p' (String "1" acc)
  end.

Fixpoint zeros (n : nat) : string :=
  match n with
  | 0 => EmptyString
  | S n' => String "0" (zeros n')
  end.

(** [format(i, f'0{width}b')]: the binary digits of [i], padded on the left
    with ['0'] up to [width] characters (and never truncated). *)
Definition format_b (i width : nat) : string :=
  let digits :=
    match N.of_nat i with
    | N0 => "0"
    | Npos p => binary_digits p ""
    end in
  zeros (width - String.length digits) +:+ digits.

(** The loop [for j, var in enumerate(inputs): variable_values[var] =
    binary[j] == '1'], started at index [j]. *)
Fixpoint assign (binary : string) (j : nat) (vars : list string)
  (variable_values : gmap string bool) : gmap string bool :=
  match vars with
  | [] => variable_values
  | var :: vars' =>
      assign binary (S j) vars'
        (<[var := bool_decide (String.get j binary = Some "1"%char)]> variable_values)
  end.

(** [{var: variable_values[var] for var in inputs}] *)
Definition row_of (vars : list string) (variable_values : gmap string bool)
  : gmap string bool :=
  foldl (λ row var, <[var := variable_values !!! var]> row) ∅ vars.

(** The body of the loop over [i]: the row appended to [truth_table]. *)
Definition table_row (circuit : Circuit) (i : nat) : gmap string bool :=
  let num_inputs := length (inputs circuit) in
  let binary := format_b i num_inputs in
  let variable_values := assign binary 0 (inputs circuit) ∅ in
  let output := Gate.evaluate (output_gate circuit) variable_values in
  <["Output" := output]> (row_of (inputs circuit) variable_values).

(** [CircuitGenerator.generate_truth_table] *)
Definition generate_truth_table (circuit : Circuit) : list (gmap string bool) :=
  table_row circuit <$> seq 0 (2 ^ length (inputs circuit)).

(** [main]: the truth table of a source string, when it parses. *)
Definition circuit_of (e : string) : option Circuit :=
  match parse e with
  | Return tree => Some (build tree)
  | _ => None
  end.

(** The identifier leaves of a parse tree, from left to right. *)
Fixpoint identifiers (node : Node) : list string :=
  match node with
  | IDENTIFIER v => [v]
  | NOT a => identifiers a
  | AND a b | OR a b => identifiers a ++ identifiers b
  end.

(** ** Printing the truth table ([circuit_visualizer.py]) *)

(** [s * n] *)
Fixpoint times (s : string) (n : nat) : string :=
  match n with
  | 0 => EmptyString
  | S n' => s +:+ times s n'
  end.

(** [str(int(b))] *)
Definition bool_digit (b : bool) : string := if b then "1" else "0".

Definition newline : string := String "010"%char EmptyString.

(** [[str(int(row[var])) for var in inputs]]: the digits, or the key of the
    [KeyError] raised by the first variable missing in [row]. *)
Fixpoint row_values (row : gmap string bool) (vars : list string)
  : string + list string :=
  match vars with
  | [] => inr []
  | var :: vars' =>
      match row !! var with
      | None => inl var
      | Some b =>
          match row_values row vars' with
          | inl key => inl key
          | inr digits => inr (bool_digit b :: digits)
          end
      end
  end.

(** The loop over the rows of [visualize_truth_table]: the lines printed,
    and the key of the [KeyError] that stopped the loop, if any. *)
Fixpoint print_rows (truth_table : list (gmap string bool)) (vars : list string)
  : list string * option string :=
  match truth_table with
  | [] => ([], None)
  | row :: rest =>
      match row_values row vars with
      | inl key => ([], Some key)
      | inr values =>
          match row !! "Output" with
          | None => ([], Some "Output")
          | Some b =>
              let line := String.concat " | " values +:+ " |   " +:+ bool_digit b in
              let '(lines, err) := print_rows rest vars in
              (line :: lines, err)
          end
      end
  end.

(** [visualize_truth_table]: the arguments of the calls of [print], in
    order, and the key of the [KeyError] raised, if any. *)
Definition visualize_truth_table (truth_table : list (gmap string bool))
  (vars : list string) : list string * option string :=
  let header := String.concat " | " vars +:+ " | Output" in
  let top :=
    [newline +:+ times "=" 50; "TRUTH TABLE"; times "=" 50; header;
     times "-" (String.length header)] in
  let '(lines, err) := print_rows truth_table vars in
  match err with
  | Some key => (top ++ lines, Some key)
  | None => (top ++ lines ++ [times "=" 50 +:+ newline], None)
  end.

(** ** Placing and drawing the gates ([circuit_visualizer.py]) *)

(** [l.index(x)]: the first index of [x] in [l], or [None] for the
    [ValueError] raised when [x] is not in [l]. *)
Fixpoint index (x : string) (l : list string) : option nat :=
  match l with
  | [] => None
  | y :: l' => if decide (x = y) then Some 0 else S <$> index x l'
  end.

Section Visualizer.

(** The type of Python floats with the two computations made on them: the
    height [6 - input_index * 1.5] of an input and the mean
    [(a + b) / 2] of two heights. Nothing is assumed about them. *)
Context {F : Type}.
Variable input_y : nat → F.
Variable mean_y : F → F → F.

(** A position [(x, y)]: [x] is an integer, [y] a float. *)
Definition position : Type := Z * F.

(** [CircuitVisualizer._position_gates]; [gate_positions] is the dictionary
    of the visualizer, and [None] stands for the [ValueError] of [index]. *)
Fixpoint _position_gates (gate : Gate.t) (x y : Z) (vars : list string)
  (level : nat) (gate_positions : gmap nat position)
  : option (position * gmap nat position) :=
  match gate_positions !! Gate.gate_id gate with
  | Some pos => Some (pos, gate_positions)
  | None =>
      match gate with
      | Gate.Input i var =>
          match index var vars with
          | None => None
          | Some input_index =>
              let pos := (1%Z, input_y input_index) in
              Some (pos, <[i := pos]> gate_positions)
          end
      | Gate.Not i a =>
          match _position_gates a (x - 2) y vars (S level) gate_positions with
          | None => None
          | Some (child_pos, gate_positions) =>
              let pos := (child_pos.1 + 2, child_pos.2)%Z in
              Some (pos, <[i := pos]> gate_positions)
          end
      | Gate.And i a b | Gate.Or i a b =>
          match _position_gates a (x - 2) (y + 1) vars (S level) gate_positions with
          | None => None
          | Some (left_pos, gate_positions) =>
              match _position_gates b (x - 2) (y - 1) vars (S level) gate_positions with
              | None => None
              | Some (right_pos, gate_positions) =>
                  let avg_y := mean_y left_pos.2 right_pos.2 in
                  let pos := (Z.max left_pos.1 right_pos.1 + 2, avg_y)%Z in
                  Some (pos, <[i := pos]> gate_positions)
              end
          end
      end
  end.

(** The calls of the drawing methods made by [_draw_gate_recursive]. *)
Inductive DrawCall : Type :=
| _draw_input (pos : position) (label : string)
| _draw_not_gate (pos : position)
| _draw_and_gate (pos : position)
| _draw_or_gate (pos : position)
| _draw_connection (from_pos to_pos : position) (side : string).

(** [CircuitVisualizer._draw_gate_recursive]: the state is the set
    [drawn_gates] and the calls made so far; [None] stands for the
    [KeyError] of a gate without a position. *)
Fixpoint _draw_gate_recursive (gate : Gate.t) (gate_positions : gmap nat position)
  (st : gset nat * list DrawCall) : option (gset nat * list DrawCall) :=
  if decide (Gate.gate_id gate ∈ st.1) then Some st
  else
    match gate with
    | Gate.Input i var =>
        match gate_positions !! i with
        | None => None
        | Some pos => Some ({[i]} ∪ st.1, st.2 ++ [_draw_input pos var])
        end
    | Gate.Not i a =>
        match _draw_gate_recursive a gate_positions st with
        | None => None
        | Some st =>
            match gate_positions !! i, gate_positions !! Gate.gate_id a with
            | Some pos, Some from_pos =>
                Some ({[i]} ∪ st.1,
                      st.2 ++ [_draw_not_gate pos;
                               _draw_connection from_pos pos "center"])
            | _, _ => None
            end
        end
    | Gate.And i a b =>
        match _draw_gate_recursive a gate_positions st with
        | None => None
        | Some st =>
            match _draw_gate_recursive b gate_positions st with
            | None => None
            | Some st =>
                match gate_positions !! i, gate_positions !! Gate.gate_id a,
                      gate_positions !! Gate.gate_id b with
                | Some pos, Some left_pos, Some right_pos =>
                    Some ({[i]} ∪ st.1,
                          st.2 ++ [_draw_and_gate pos;
                                   _draw_connection left_pos pos "left";
                                   _draw_connection right_pos pos "right"])
                | _, _, _ => None
                end
            end
        end
    | Gate.Or i a b =>
        match _draw_gate_recursive a gate_positions st with
        | None => None
        | Some st =>
            match _draw_gate_recursive b gate_positions st with
            | None => None
            | Some st =>
                match gate_positions !! i, gate_positions !! Gate.gate_id a,
                      gate_positions !! Gate.gate_id b with
                | Some pos, Some left_pos, Some right_pos =>
                    Some ({[i]} ∪ st.1,
                          st.2 ++ [_draw_or_gate pos;
                                   _draw_connection left_pos pos "left";
                                   _draw_connection right_pos pos "right"])
                | _, _, _ => None
                end
            end
        end
    end.

(** [CircuitVisualizer(circuit).visualize()], as far as the gates go: the
    dictionary of positions it fills and the drawing calls it makes. *)
Definition visualize (circuit : Circuit)
  : option (gmap nat position * list DrawCall) :=
  match _position_gates (output_gate circuit) 8 4 (inputs circuit) 0 ∅ with
  | None => None
  | Some (_, gate_positions) =>
      match _draw_gate_recursive (output_gate circuit) gate_positions (∅, []) with
      | None => None
      | Some (_, calls) => Some (gate_positions, calls)
      end
  end.

(** The position passed to a call that draws a gate. *)
Definition drawn_at (call : DrawCall) : option position :=
  match call with
  | _draw_input pos _ | _draw_not_gate pos | _draw_and_gate pos
  | _draw_or_gate pos => Some pos
  | _draw_connection _ _ _ => None
  end.

End Visualizer.

(** ** The operator check of [get_user_input] ([main.py]) *)

(** [sub in s] on strings. *)
Fixpoint contains (sub s : string) : bool :=
  String.prefix sub s
  || match s with
     | String _ s' => contains sub s'
     | EmptyString => false
     end.

(** The condition of the "Basic validation" of [get_user_input], under
    which the expression is turned away with "No operators found":
    [not any(op in expression for op in ['AND', 'OR', 'NOT']) and
    '(' not in expression]. *)
Definition no_operators_found (expression : string) : bool :=
  negb (contains "AND" expression || contains "OR" expression
        || contains "NOT" expression)
  && negb (contains "(" expression).

(** * Vocabulary of the properties *)

(** The parse tree a gate tree was built from: forget the numbers. *)
Fixpoint shape (g : Gate.t) : Node :=
  match g with
  | Gate.Input _ v => IDENTIFIER v
  | Gate.Not _ a => NOT (shape a)
  | Gate.And _ a b => AND (shape a) (shape b)
  | Gate.Or _ a b => OR (shape a) (shape b)
  end.

(** The character of a binary digit. *)
Definition bit_char (b : bool) : ascii := if b then "1"%char else "0"%char.

(** The assignment built for row [i]. *)
Definition assignment (circuit : Circuit) (i : nat) : gmap string bool :=
  assign (format_b i (length (inputs circuit))) 0 (inputs circuit) ∅.

(** [v] is a piece of [e]. *)
Definition occurs (v e : string) : Prop := ∃ pre post, e = pre +:+ (v +:+ post).

Fixpoint all_ident_chars (s : string) : bool :=
  match s with
  | String c s' => Regex.ident_char c && all_ident_chars s'
  | EmptyString => true
  end.

(** [v] has the shape [[a-zA-Z_][a-zA-Z0-9_]*]. *)
Definition is_identifier (v : string) : bool :=
  match v with
  | String c s' => Regex.ident_start c && all_ident_chars s'
  | EmptyString => false
  end.

(** What remains to be read: the characters from [pos] on, and the pending
    token. Every call of [next_token] that replaces a pending token makes it
    smaller. *)
Definition pending (self : LogicParser) : nat :=
  String.length (expression self) - pos self
  + (match current_token self with Some _ => 1 | None => 0 end).

(** [triple P c Q]: from a parser object in [P], the call [c] does not run
    out of fuel, and if it returns [a] it leaves a parser object in [Q a]. *)
Definition triple {A} (P : LogicParser → Prop) (c : M A)
  (Q : A → LogicParser → Prop) : Prop :=
  ∀ self, P self →
    match c self with
    | (Return a, self') => Q a self'
    | (Raise _, _) => True
    | (Diverge, _) => False
    end.

(** The pending token, if an identifier, is an identifier-shaped piece of
    the source string [e]. *)
Definition token_ok (e : string) (tok : option Token) : Prop :=
  ∀ v, tok = Some (TOK_IDENTIFIER v) → is_identifier v = true ∧ occurs v e.

Definition node_ok (e : string) (node : Node) : Prop :=
  Forall (λ v, is_identifier v = true ∧ occurs v e) (identifiers node).

(** The parser object reads [e], has at most [m] left to read, and its
    pending identifier, if any, comes from [e]. *)
Definition inv (e : string) (m : nat) (self : LogicParser) : Prop :=
  expression self = e ∧ pending self ≤ m ∧ token_ok e (current_token self).

(** A parsing method that can be called whenever less than [n] is left. *)
Definition good (e : string) (n : nat) (c : M Node) : Prop :=
  ∀ m, m < n →
    triple (inv e m) c (λ node self', inv e m self' ∧ node_ok e node).

Definition node_post (e : string) (m : nat) (node : Node) (self' : LogicParser)
  : Prop :=
  inv e m self' ∧ node_ok e node.

(** [c'] does what [c] does whenever [c] has enough fuel. *)
Definition refines {A} (c c' : M A) : Prop :=
  ∀ self r self', c self = (r, self') → r ≠ Diverge → c' self = (r, self').

(** The Boolean meaning of a parse tree under an assignment; a variable
    without a value counts as [false]. *)
Fixpoint denote (node : Node) (vv : gmap string bool) : bool :=
  match node with
  | IDENTIFIER v => default false (vv !! v)
  | NOT a => negb (denote a vv)
  | AND a b => denote a vv && denote b vv
  | OR a b => denote a vv || denote b vv
  end.

(** Number of nodes of a parse tree. *)
Fixpoint node_count (node : Node) : nat :=
  match node with
  | IDENTIFIER _ => 1
  | NOT a => S (node_count a)
  | AND a b | OR a b => S (node_count a + node_count b)
  end.

(** The three messages of the exceptions raised in [logic_parser.py]. *)
Definition known_error (msg : string) : Prop :=
  msg = "Invalid factor" ∨ msg = "Missing closing parenthesis"
  ∨ msg = "Invalid character".

(** The call [c] keeps [I] whatever it does, and raises known errors only. *)
Definition keeps {A} (I : LogicParser → Prop) (c : M A) : Prop :=
  ∀ self, I self →
    match c self with
    | (Return _, self') => I self'
    | (Raise msg, self') => I self' ∧ known_error msg
    | (Diverge, self') => I self'
    end.

(** The parser object reads [e] and its position lies between [p0] and the
    end of [e]. *)
Definition in_bounds (e : string) (p0 : nat) (self : LogicParser) : Prop :=
  expression self = e ∧ p0 ≤ pos self ∧ pos self ≤ String.length e.

(** [n] spaces. *)
Fixpoint blanks (n : nat) : string :=
  match n with
  | 0 => EmptyString
  | S n' => String " " (blanks n')
  end.

(** The parser object [s] seen inside a longer string: [pre] is put in
    front of the expression and the position moves accordingly. *)
Definition shift (pre : string) (s : LogicParser) : LogicParser :=
  mkLogicParser (pre +:+ expression s) (String.length pre + pos s)
    (current_token s).

(** The call [c] does not look at what stands before the scan position. *)
Definition commutes {A} (pre : string) (c : M A) : Prop :=
  ∀ s, c (shift pre s) = (fst (c s), shift pre (snd (c s))).

(** Two parser objects, one reading [e] and one reading [e] followed by
    [post], at the same point of their work: either at the same position
    with the same pending token, or the first one at the end of [e] with no
    token and the second one just after the first token of [post]. That
    token is [tok_end] and ends [used] characters into [post]. *)
Definition extends (e post : string) (tok_end : option Token) (used : nat)
  (s s' : LogicParser) : Prop :=
  expression s = e ∧ expression s' = e +:+ post ∧ pos s ≤ String.length e
  ∧ ((pos s' = pos s ∧ current_token s' = current_token s
      ∧ is_Some (current_token s))
     ∨ (current_token s = None ∧ current_token s' = tok_end
        ∧ pos s' = String.length e + used)).

(** Whenever [c] returns from the first of two related parser objects, it
    returns the same value from the second one, and leaves them related. *)
Definition follows {A} (R : LogicParser → LogicParser → Prop) (c : M A) : Prop :=
  ∀ s s' a s1,
    R s s' → c s = (Return a, s1) →
    ∃ s1', c s' = (Return a, s1') ∧ R s1 s1'.

(** From a parser object in [I], the call [c] leaves a parser object in
    [I] and returns a value in [Q], if it returns. *)
Definition yields {A} (I : LogicParser → Prop) (c : M A) (Q : A → Prop) : Prop :=
  ∀ self, I self →
    match c self with
    | (Return a, self') => I self' ∧ Q a
    | _ => True
    end.

(** The parser object reads [e] and its pending token is no operator and
    no opening parenthesis. *)
Definition plain (e : string) (self : LogicParser) : Prop :=
  expression self = e
  ∧ match current_token self with
    | Some TOK_LPAREN | Some TOK_AND | Some TOK_OR | Some TOK_NOT => False
    | _ => True
    end.

(** The number of gates on the longest path from a gate down to an input. *)
Fixpoint height (g : Gate.t) : Z :=
  match g with
  | Gate.Input _ _ => 0
  | Gate.Not _ a => height a + 1
  | Gate.And _ a b | Gate.Or _ a b => Z.max (height a) (height b) + 1
  end.

(** The ids of the gates of a tree, operands first. *)
Definition ids (g : Gate.t) : list nat := Gate.gate_id <$> Gate.subgates g.

(** What a gate tree looks like once placed: every gate of the tree has a
    position in [gp], at abscissa [1 + 2 * height], and the inputs stand at
    the height given by the index of their variable. *)
Definition placed {F} (input_y : nat → F) (vars : list string) (g : Gate.t)
  (gp : gmap nat (@position F)) : Prop :=
  ∀ g', g' ∈ Gate.subgates g →
    ∃ p, gp !! Gate.gate_id g' = Some p
         ∧ p.1 = (1 + 2 * height g')%Z
         ∧ ∀ i v, g' = Gate.Input i v →
             ∃ j, index v vars = Some j ∧ p.2 = input_y j.

(** [_position_gates] on a tree whose gates have distinct ids, none of
    which has a position yet, and whose variables are all in [vars]: it does
    not fail, places the tree and leaves the other positions alone. *)
Definition places {F} (input_y : nat → F) (mean_y : F → F → F)
  (vars : list string) (g : Gate.t) : Prop :=
  ∀ (x y : Z) (level : nat) (gp : gmap nat (@position F)),
    NoDup (ids g) → (∀ i, i ∈ ids g → gp !! i = None) →
    (∀ v, v ∈ omap Gate.variable (Gate.subgates g) → v ∈ vars) →
    ∃ pos gp',
      _position_gates input_y mean_y g x y vars level gp = Some (pos, gp')
      ∧ pos.1 = (1 + 2 * height g)%Z
      ∧ gp' !! Gate.gate_id g = Some pos
      ∧ (∀ i, i ∉ ids g → gp' !! i = gp !! i)
      ∧ placed input_y vars g gp'.

(** [_draw_gate_recursive] on a tree whose gates have distinct ids, none of
    them drawn yet, and all with a position: it does not fail, marks the ids
    of the tree as drawn, and adds one gate-drawing call per gate, in
    post-order, each at the position of its gate, and one connection per
    operand. *)
Definition draws {F} (gp : gmap nat (@position F)) (g : Gate.t) : Prop :=
  ∀ (drawn : gset nat) (calls : list (@DrawCall F)),
    NoDup (ids g) → (∀ i, i ∈ ids g → i ∉ drawn) →
    (∀ g', g' ∈ Gate.subgates g → is_Some (gp !! Gate.gate_id g')) →
    ∃ calls',
      _draw_gate_recursive g gp (drawn, calls)
      = Some (list_to_set (ids g) ∪ drawn, calls ++ calls')
      ∧ Some <$> omap drawn_at calls'
        = (λ g', gp !! Gate.gate_id g') <$> Gate.subgates g
      ∧ length calls' = 2 * length (Gate.subgates g) - 1.

(** ** Writing a syntax tree back as an expression *)

(** The text the scanner reads a token from. *)
Definition token_text (t : Token) : string :=
  match t with
  | TOK_LPAREN => "("
  | TOK_RPAREN => ")"
  | TOK_AND => "AND"
  | TOK_OR => "OR"
  | TOK_NOT => "NOT"
  | TOK_IDENTIFIER v => v
  end.

(** Tokens written one after the other, a blank after each. *)
Fixpoint unlex (toks : list Token) : string :=
  match toks with
  | [] => ""
  | t :: ts => token_text t +:+ " " +:+ unlex ts
  end.

Definition parens (b : bool) (toks : list Token) : list Token :=
  if b then TOK_LPAREN :: toks ++ [TOK_RPAREN] else toks.

(** The tokens of a tree where [expr] (level 0), [term] (level 1) or
    [factor] (level 2) is to read it: parentheses only where the method
    would otherwise stop early or group differently. *)
Fixpoint tokens (lvl : nat) (t : Node) : list Token :=
  match t with
  | IDENTIFIER v => [TOK_IDENTIFIER v]
  | NOT a => TOK_NOT :: tokens 2 a
  | AND a b => parens (2 <=? lvl)%nat (tokens 1 a ++ TOK_AND :: tokens 2 b)
  | OR a b => parens (1 <=? lvl)%nat (tokens 0 a ++ TOK_OR :: tokens 1 b)
  end.

Definition render (t : Node) : string := unlex (tokens 0 t).

(** A name the scanner reads as one identifier token. *)
Definition clean (v : string) : Prop :=
  is_identifier v = true ∧ Regex.match_keyword v = None.

(** The parser is about to read the tokens [toks], and nothing after. *)
Fixpoint positioned (s : LogicParser) (toks : list Token) : Prop :=
  match toks with
  | [] => current_token s = None
  | t :: ts =>
      current_token s = Some t
      ∧ ∃ s', next_token s = (Return (), s') ∧ positioned s' ts
  end.

(** The number of iterations of the loop of [term], of [expr], for a tree. *)
Fixpoint and_spine (t : Node) : nat :=
  match t with AND a _ => S (and_spine a) | _ => 0 end.
Fixpoint or_spine (t : Node) : nat :=
  match t with OR a _ => S (or_spine a) | _ => 0 end.

(** What [factor], the loop of [term] and the loop of [expr] do on the
    tokens of a tree, followed by any other tokens. *)
Definition reads_factor (t : Node) : Prop :=
  ∀ (n : nat) (s : LogicParser) (rest : list Token),
    length (tokens 2 t) < n →
    positioned s (tokens 2 t ++ rest) →
    ∃ s', factor n s = (Return t, s') ∧ positioned s' rest.

Definition reads_term (t : Node) : Prop :=
  ∀ (n k : nat) (s : LogicParser) (rest : list Token),
    length (tokens 1 t) < n →
    positioned s (tokens 1 t ++ rest) →
    ∃ s', term_with (factor n) (and_spine t + k) s
          = term_loop (factor n) k t s'
          ∧ positioned s' rest.

Definition reads_expr (t : Node) : Prop :=
  ∀ (n k : nat) (s : LogicParser) (rest : list Token),
    length (tokens 0 t) < n →
    head rest ≠ Some TOK_AND →
    positioned s (tokens 0 t ++ rest) →
    ∃ s', expr_with (term n) (or_spine t + k) s
          = expr_loop (term n) k t s'
          ∧ positioned s' rest.

(** The pending token, if an identifier, is one the scanner reads back. *)
Definition clean_token (self : LogicParser) : Prop :=
  ∀ v, current_token self = Some (TOK_IDENTIFIER v) → clean v.

Definition clean_node (node : Node) : Prop :=
  ∀ v, v ∈ identifiers node → clean v.

(** * Properties *)

(** ** Tokenizer *)

Section Tokenizer.

Lemma prefix_append (k w : string) : String.prefix k (k +:+ w) = true.
Proof.
  induction k as [|c k IH].
  - change ("" +:+ w) with w. by destruct w.
  - change (String c k +:+ w) with (String c (k +:+ w)); simpl.
    destruct (Ascii.ascii_dec c c); [exact IH | done].
Qed.

Lemma slice_from_get (p : nat) (e : string) (c : ascii) :
  String.get p e = Some c →
  ∃ rest, Regex.slice_from p e = String c rest ∧ (p < String.length e)%nat.
Proof.
  revert p; induction e as [|a e IH]; intros [|p] H; simplify_eq/=.
  - eexists; split; [done | lia].
  - destruct (IH p H) as (rest & -> & ?). eexists; split; [done | lia].
Qed.

Lemma match_keyword_no_letter (c : ascii) (rest : string) :
  Regex.ident_start c = false → Regex.match_keyword (String c rest) = None.
Proof.
  intros Hid.
  destruct c as [[] [] [] [] [] [] [] []]; try discriminate Hid; reflexivity.
Qed.

(** What [next_token] does on a character that no rule matches. *)
Lemma next_token_no_rule (self : LogicParser) (c : ascii) :
  let p := pos self
           + Regex.leading_spaces (Regex.slice_from (pos self) (expression self)) in
  String.get p (expression self) = Some c →
  c ≠ "("%char → c ≠ ")"%char → Regex.ident_start c = false →
  next_token self
  = (Raise "Invalid character",
     mkLogicParser (expression self) p (current_token self)).
Proof.
  intros p Hget Hl Hr Hid. unfold next_token. fold p.
  destruct (slice_from_get _ _ _ Hget) as (rest & Hrest & Hlt).
  destruct (decide _) as [Hle|_]; [lia|].
  rewrite Hrest, (match_keyword_no_letter _ _ Hid). simpl. rewrite Hid.
  destruct c as [[] [] [] [] [] [] [] []]; try done.
Qed.

End Tokenizer.

(** C1: a word that merely begins with a keyword is meant to be one
    identifier.  The tokenizer does otherwise: whatever follows the letters
    [AND], the first token is the keyword and the scan stops right after it,
    so [ANDY] is split into [AND] and the identifier [Y] (and does not
    parse), and [NOTA] is read as [NOT A]. *)
Theorem C1_keyword_prefix_is_split :
  (∀ w : string,
     next_token (new_parser ("AND" +:+ w))
     = (Return (), mkLogicParser ("AND" +:+ w) 3 (Some TOK_AND))
     ∧ next_token (new_parser ("OR" +:+ w))
       = (Return (), mkLogicParser ("OR" +:+ w) 2 (Some TOK_OR))
     ∧ next_token (new_parser ("NOT" +:+ w))
       = (Return (), mkLogicParser ("NOT" +:+ w) 3 (Some TOK_NOT)))
  ∧ next_token (mkLogicParser "ANDY" 3 (Some TOK_AND))
    = (Return (), mkLogicParser "ANDY" 4 (Some (TOK_IDENTIFIER "Y")))
  ∧ parse "ANDY" = Raise "Invalid factor"
  ∧ parse "NOTA" = Return (NOT (IDENTIFIER "A"))
  ∧ parse "ORANGE OR B" = Raise "Invalid factor".
Proof.
  split; [|by vm_compute].
  intros w. split_and!.
  - unfold next_token, new_parser; simpl.
    unfold Regex.match_keyword.
    change (String "A" (String "N" (String "D" w))) with ("AND" +:+ w).
    by rewrite prefix_append.
  - unfold next_token, new_parser; simpl.
    unfold Regex.match_keyword.
    change (String "O" (String "R" w)) with ("OR" +:+ w).
    by rewrite prefix_append.
  - unfold next_token, new_parser; simpl.
    unfold Regex.match_keyword.
    change (String "N" (String "O" (String "T" w))) with ("NOT" +:+ w).
    by rewrite prefix_append.
Qed.

(** C2: a returned tree is meant to imply that every token was consumed.
    [parse] returns as soon as [expr] does: on [A XOR B] it returns the
    tree of [A] with the token [XOR] pending and [B] unread, and on [A )]
    it returns it with the closing parenthesis pending. *)
Theorem C2_trailing_tokens_accepted :
  run_parse "A XOR B"
  = (Return (IDENTIFIER "A"),
     mkLogicParser "A XOR B" 5 (Some (TOK_IDENTIFIER "XOR")))
  ∧ run_parse "A )"
    = (Return (IDENTIFIER "A"), mkLogicParser "A )" 3 (Some TOK_RPAREN))
  ∧ run_parse "A B"
    = (Return (IDENTIFIER "A"), mkLogicParser "A B" 3 (Some (TOK_IDENTIFIER "B")))
  ∧ ¬ (∀ e tree self',
         run_parse e = (Return tree, self') → current_token self' = None).
Proof.
  split_and!; [by vm_compute..|].
  intros H. by specialize (H "A )" (IDENTIFIER "A") _ eq_refl).
Qed.

(** C5: parsing the empty string raises ["Invalid factor"], the parser's
    own error; no tree is returned, so no circuit is built. *)
Theorem C5_empty_input_fails :
  run_parse "" = (Raise "Invalid factor", new_parser "")
  ∧ (∀ tree, parse "" ≠ Return tree)
  ∧ circuit_of "" = None.
Proof. by vm_compute. Qed.

(** C9 as stated fails: the exception raised on an unrecognised character
    is the same value wherever the character stands, so no position can be
    read from it. *)
Lemma C9_error_has_no_position :
  ¬ ∃ position_of : outcome Node → nat,
      position_of (parse "&") = 0 ∧ position_of (parse "A & B") = 2.
Proof.
  intros (f & H0 & H2).
  change (parse "A & B") with (parse "&") in H2. congruence.
Qed.

(** C9, amended: when, after the blanks, the scan position holds a character
    that is neither a parenthesis nor a letter nor an underscore,
    [next_token] raises ["Invalid character"]; the exception holds the
    message only, and the parser object is left with [pos] on that
    character. ["A & B"] fails this way with [pos] on the ampersand. *)
Theorem C9_invalid_character (self : LogicParser) (c : ascii) :
  let p := pos self
           + Regex.leading_spaces (Regex.slice_from (pos self) (expression self)) in
  String.get p (expression self) = Some c →
  c ≠ "("%char → c ≠ ")"%char → Regex.ident_start c = false →
  (next_token self
   = (Raise "Invalid character",
      mkLogicParser (expression self) p (current_token self)))
  ∧ run_parse "A & B"
    = (Raise "Invalid character",
       mkLogicParser "A & B" 2 (Some (TOK_IDENTIFIER "A")))
  ∧ String.get 2 "A & B" = Some "&"%char.
Proof.
  intros p Hget Hl Hr Hid. split; [by apply (next_token_no_rule self c)|by vm_compute].
Qed.

Lemma C9_invalid_character_witness :
  next_token (mkLogicParser "x  1A" 1 None)
  = (Raise "Invalid character", mkLogicParser "x  1A" 3 None).
Proof.
  refine (proj1 (C9_invalid_character (mkLogicParser "x  1A" 1 None) "1" _ _ _ _));
    by vm_compute.
Defined.

(** ** Evaluator *)

Section Evaluator.

Implicit Types (g a b : Gate.t) (vv : gmap string bool).

Lemma evaluate_log_eq g vv :
  Gate.evaluate_log g vv = (Gate.evaluate g vv, Gate.lookups g vv).
Proof. unfold Gate.evaluate, Gate.lookups. by destruct (Gate.evaluate_log g vv). Qed.

Lemma evaluate_Input i v vv :
  Gate.evaluate (Gate.Input i v) vv = default false (vv !! v).
Proof. reflexivity. Qed.

Lemma evaluate_Not i a vv :
  Gate.evaluate (Gate.Not i a) vv = negb (Gate.evaluate a vv).
Proof.
  unfold Gate.evaluate at 1; simpl. by rewrite evaluate_log_eq.
Qed.

Lemma evaluate_And i a b vv :
  Gate.evaluate (Gate.And i a b) vv = Gate.evaluate a vv && Gate.evaluate b vv.
Proof.
  unfold Gate.evaluate at 1; simpl. by rewrite !evaluate_log_eq.
Qed.

Lemma evaluate_Or i a b vv :
  Gate.evaluate (Gate.Or i a b) vv = Gate.evaluate a vv || Gate.evaluate b vv.
Proof.
  unfold Gate.evaluate at 1; simpl. by rewrite !evaluate_log_eq.
Qed.

Lemma lookups_binary i a b vv :
  Gate.lookups (Gate.And i a b) vv = Gate.lookups a vv ++ Gate.lookups b vv
  ∧ Gate.lookups (Gate.Or i a b) vv = Gate.lookups a vv ++ Gate.lookups b vv.
Proof.
  unfold Gate.lookups at 1 4; simpl. by rewrite !evaluate_log_eq.
Qed.

Lemma lookups_Not i a vv : Gate.lookups (Gate.Not i a) vv = Gate.lookups a vv.
Proof. unfold Gate.lookups at 1; simpl. by rewrite evaluate_log_eq. Qed.

(** Evaluation reads every input gate of the tree once, whatever the
    values are: nothing is skipped. *)
Lemma lookups_all_inputs g vv :
  Gate.lookups g vv = omap Gate.variable (Gate.subgates g).
Proof.
  induction g as [i v|i a IHa|i a IHa b IHb|i a IHa b IHb]; simpl.
  - reflexivity.
  - rewrite lookups_Not, IHa, omap_app; simpl. by rewrite app_nil_r.
  - rewrite (proj1 (lookups_binary _ _ _ _)), IHa, IHb, !omap_app; simpl.
    by rewrite app_nil_r.
  - rewrite (proj2 (lookups_binary _ _ _ _)), IHa, IHb, !omap_app; simpl.
    by rewrite app_nil_r.
Qed.

End Evaluator.

(** C6: an input gate returns the value the assignment gives to its
    variable, and [false] when the assignment has no entry for it; a
    [NOT], [AND], [OR] gate returns the negation, conjunction, disjunction
    of the values of its operands. Both operands of [AND] and [OR] are
    evaluated whatever the left one returns: the lookups made are those of
    the left operand followed by those of the right one, and every input
    gate of the tree is read. *)
Theorem C6_evaluate (i : nat) (v : string) (a b : Gate.t) (vv : gmap string bool) :
  (∀ x, vv !! v = Some x → Gate.evaluate (Gate.Input i v) vv = x)
  ∧ (vv !! v = None → Gate.evaluate (Gate.Input i v) vv = false)
  ∧ Gate.evaluate (Gate.Not i a) vv = negb (Gate.evaluate a vv)
  ∧ Gate.evaluate (Gate.And i a b) vv = Gate.evaluate a vv && Gate.evaluate b vv
  ∧ Gate.evaluate (Gate.Or i a b) vv = Gate.evaluate a vv || Gate.evaluate b vv
  ∧ Gate.lookups (Gate.And i a b) vv = Gate.lookups a vv ++ Gate.lookups b vv
  ∧ Gate.lookups (Gate.Or i a b) vv = Gate.lookups a vv ++ Gate.lookups b vv
  ∧ Gate.lookups a vv = omap Gate.variable (Gate.subgates a).
Proof.
  split_and!.
  - intros x Hx. by rewrite evaluate_Input, Hx.
  - intros Hx. by rewrite evaluate_Input, Hx.
  - apply evaluate_Not.
  - apply evaluate_And.
  - apply evaluate_Or.
  - apply lookups_binary.
  - apply lookups_binary.
  - apply lookups_all_inputs.
Qed.

Lemma C6_evaluate_witness :
  Gate.evaluate (Gate.Input 0 "A") {["A" := true]} = true
  ∧ Gate.evaluate (Gate.Input 0 "B") {["A" := true]} = false.
Proof.
  split.
  - refine (proj1 (C6_evaluate 0 "A" (Gate.Input 0 "A") (Gate.Input 0 "A")
                     {["A" := true]}) true _).
    by vm_compute.
  - refine (proj1 (proj2 (C6_evaluate 0 "B" (Gate.Input 0 "A") (Gate.Input 0 "A")
                     {["A" := true]})) _).
    by vm_compute.
Defined.

(** ** Precedence *)


(** ** Circuit builder *)


Section Builder.

Implicit Types (g : Gate.t) (node : Node) (self : CircuitGenerator).

Lemma subgates_last g : ∃ l, Gate.subgates g = l ++ [g].
Proof.
  destruct g; simpl.
  - by exists [].
  - by eexists.
  - eexists (_ ++ _). by rewrite <-app_assoc.
  - eexists (_ ++ _). by rewrite <-app_assoc.
Qed.

Lemma subgates_length_pos g : 0 < length (Gate.subgates g).
Proof.
  destruct (subgates_last g) as [l ->]. rewrite length_app; simpl; lia.
Qed.


Lemma lookup_app_shift {A} (l1 l2 : list A) (j : nat) :
  (l1 ++ l2) !! (length l1 + j) = l2 !! j.
Proof. rewrite lookup_app_r by lia. f_equal; lia. Qed.


Lemma variables_of_shape g :
  omap Gate.variable (Gate.subgates g) = identifiers (shape g).
Proof.
  induction g as [n v|n a IHa|n a IHa b IHb|n a IHa b IHb]; simpl;
    rewrite ?omap_app, ?IHa, ?IHb; simpl; by rewrite ?app_nil_r.
Qed.

(** What one call of [_build_circuit] does to the generator: it appends
    the post-order list of the gate tree it returns, numbers it with
    consecutive numbers from the counter on, and adds the identifiers of
    the node to the set of variables. *)
Lemma build_circuit_spec node :
  ∀ self g self',
    _build_circuit node self = (g, self') →
    shape g = node
    ∧ gates self' = gates self ++ Gate.subgates g
    ∧ gate_counter self' = gate_counter self + length (Gate.subgates g)
    ∧ Gate.gate_id <$> Gate.subgates g
      = seq (gate_counter self) (length (Gate.subgates g))
    ∧ input_variables self' = list_to_set (identifiers node) ∪ input_variables self
    ∧ parse_tree self' = parse_tree self.
Proof.
  induction node as [v|a IHa|a IHa b IHb|a IHa b IHb]; intros self g self' H;
    simpl in H.
  - unfold register in H; simplify_eq/=. split_and!; try done; [lia|by rewrite (right_id_L ∅ (∪))].
  - destruct (_build_circuit a self) as [ga s1] eqn:Ha.
    destruct (IHa _ _ _ Ha) as (Hs & Hg & Hc & Hid & Hv & Ht).
    unfold register in H; simplify_eq/=.
    rewrite length_app, fmap_app, seq_app, Hid, Hc; simpl.
    split_and!; try done; [by rewrite Hg, app_assoc|lia].
  - destruct (_build_circuit a self) as [ga s1] eqn:Ha.
    destruct (_build_circuit b s1) as [gb s2] eqn:Hb.
    destruct (IHa _ _ _ Ha) as (Hsa & Hga & Hca & Hida & Hva & Hta).
    destruct (IHb _ _ _ Hb) as (Hsb & Hgb & Hcb & Hidb & Hvb & Htb).
    unfold register in H; simplify_eq/=.
    rewrite !length_app, !fmap_app, !seq_app, Hida, Hidb, Hcb, Hca; simpl.
    split_and!; try done.
    + by rewrite Hgb, Hga, <-!app_assoc.
    + lia.
    + rewrite Hvb, Hva, list_to_set_app_L.
      apply set_eq; intros x; rewrite !elem_of_union; tauto.
    + congruence.
  - destruct (_build_circuit a self) as [ga s1] eqn:Ha.
    destruct (_build_circuit b s1) as [gb s2] eqn:Hb.
    destruct (IHa _ _ _ Ha) as (Hsa & Hga & Hca & Hida & Hva & Hta).
    destruct (IHb _ _ _ Hb) as (Hsb & Hgb & Hcb & Hidb & Hvb & Htb).
    unfold register in H; simplify_eq/=.
    rewrite !length_app, !fmap_app, !seq_app, Hida, Hidb, Hcb, Hca; simpl.
    split_and!; try done.
    + by rewrite Hgb, Hga, <-!app_assoc.
    + lia.
    + rewrite Hvb, Hva, list_to_set_app_L.
      apply set_eq; intros x; rewrite !elem_of_union; tauto.
    + congruence.
Qed.

(** The circuit of a fresh generator. *)
Lemma build_spec node :
  let c := build node in
  shape (output_gate c) = node
  ∧ circuit_gates c = Gate.subgates (output_gate c)
  ∧ Gate.gate_id <$> circuit_gates c = seq 0 (length (circuit_gates c))
  ∧ inputs c = sorted (list_to_set (identifiers node)).
Proof.
  unfold build, generate, new_generator; simpl.
  destruct (_build_circuit node (mkCircuitGenerator node [] ∅ 0)) as [g s1] eqn:Hb.
  destruct (build_circuit_spec _ _ _ _ Hb) as (Hs & Hg & Hc & Hid & Hv & Ht).
  simpl in *. rewrite Hg, Hv, Hid. split_and!; try done.
  f_equal. by rewrite (right_id_L ∅ (∪)).
Qed.

Lemma sorted_spec (s : gset string) :
  StronglySorted String.le (sorted s)
  ∧ NoDup (sorted s)
  ∧ (∀ v, v ∈ sorted s ↔ v ∈ s)
  ∧ length (sorted s) = size s.
Proof.
  unfold sorted.
  pose proof (merge_sort_Permutation String.le (elements s)) as Hp.
  split_and!.
  - apply StronglySorted_merge_sort; apply _.
  - rewrite Hp. apply NoDup_elements.
  - intros v. rewrite Hp. apply elem_of_elements.
  - by rewrite Hp.
Qed.

End Builder.

Lemma input_gates_count (l : list Gate.t) :
  length (filter (λ g, Gate.is_input g) l) = length (omap Gate.variable l).
Proof.
  induction l as [|g l IH]; [done|].
  rewrite filter_cons. destruct g; simpl; by rewrite ?IH.
Qed.

Lemma elem_of_variables (l : list Gate.t) (v : string) :
  v ∈ omap Gate.variable l ↔ ∃ g, g ∈ l ∧ Gate.variable g = Some v.
Proof. by rewrite list_elem_of_omap. Qed.



(** C8: the variables of the input gates, in construction order, are the
    identifier leaves of the tree from left to right: one input gate per
    occurrence, repeated names included, and all gates have distinct ids.
    The [inputs] list is sorted, has no duplicate, holds exactly the
    variables of the input gates, and its length is the number of distinct
    identifiers of the tree. The gate tree has the shape of the parse tree. *)
Theorem C8_inputs (tree : Node) :
  let c := build tree in
  omap Gate.variable (circuit_gates c) = identifiers tree
  ∧ length (filter (λ g, Gate.is_input g) (circuit_gates c)) = length (identifiers tree)
  ∧ NoDup (Gate.gate_id <$> circuit_gates c)
  ∧ shape (output_gate c) = tree
  ∧ StronglySorted String.le (inputs c)
  ∧ NoDup (inputs c)
  ∧ (∀ v, v ∈ inputs c ↔ ∃ g, g ∈ circuit_gates c ∧ Gate.variable g = Some v)
  ∧ (∀ v, v ∈ inputs c ↔ v ∈ identifiers tree)
  ∧ length (inputs c) = size (list_to_set (identifiers tree) : gset string).
Proof.
  intros c. destruct (build_spec tree) as (Hshape & Hpost & Hids & Hin).
  fold c in Hshape, Hpost, Hids, Hin.
  destruct (sorted_spec (list_to_set (identifiers tree))) as (Hs & Hnd & Hel & Hlen).
  assert (Hvars : omap Gate.variable (circuit_gates c) = identifiers tree)
    by (by rewrite Hpost, variables_of_shape, Hshape).
  rewrite Hin. split_and!; try done.
  - by rewrite input_gates_count, Hvars.
  - rewrite Hids. apply NoDup_seq.
  - intros v. by rewrite Hel, elem_of_list_to_set, <-Hvars, elem_of_variables.
  - intros v. by rewrite Hel, elem_of_list_to_set.
Qed.

(** ** Truth table *)

Section Binary.


Lemma get_append (s1 s2 : string) (j : nat) :
  String.get j (s1 +:+ s2)
  = if decide (j < String.length s1) then String.get j s1
    else String.get (j - String.length s1) s2.
Proof.
  revert j; induction s1 as [|c s1 IH]; intros j.
  - change ("" +:+ s2) with s2. simpl. by rewrite Nat.sub_0_r.
  - change (String c s1 +:+ s2) with (String c (s1 +:+ s2)).
    destruct j as [|j]; simpl; [done|].
    rewrite IH. repeat case_decide; try done; lia.
Qed.

Lemma length_append (s1 s2 : string) :
  String.length (s1 +:+ s2) = String.length s1 + String.length s2.
Proof.
  induction s1 as [|c s1 IH]; [done|].
  change (String c s1 +:+ s2) with (String c (s1 +:+ s2)); simpl. by rewrite IH.
Qed.

Lemma length_zeros n : String.length (zeros n) = n.
Proof. induction n; simpl; congruence. Qed.

Lemma get_zeros n j : j < n → String.get j (zeros n) = Some "0"%char.
Proof.
  revert j; induction n as [|n IH]; intros [|j] H; simpl; try lia; [done|].
  apply IH; lia.
Qed.

Lemma length_binary_digits p acc :
  String.length (binary_digits p acc) = Pos.size_nat p + String.length acc.
Proof.
  revert acc; induction p as [p IH|p IH|]; intros acc; simpl; [| |done];
    rewrite IH; simpl; lia.
Qed.

Lemma get_binary_digits_acc p :
  ∀ acc m, String.get (Pos.size_nat p + m) (binary_digits p acc) = String.get m acc.
Proof.
  induction p as [p IH|p IH|]; intros acc m; simpl; [| |done];
    by rewrite <-Nat.add_succ_r, IH.
Qed.

(** The digit at index [j] is the bit of weight [size - 1 - j]. *)
Lemma get_binary_digits p :
  ∀ acc j, j < Pos.size_nat p →
    String.get j (binary_digits p acc)
    = Some (bit_char (Pos.testbit_nat p (Pos.size_nat p - 1 - j))).
Proof.
  assert (Hstep : ∀ q (b : bool) acc,
    (∀ acc j, j < Pos.size_nat q →
       String.get j (binary_digits q acc)
       = Some (bit_char (Pos.testbit_nat q (Pos.size_nat q - 1 - j)))) →
    ∀ j, j < S (Pos.size_nat q) →
      String.get j (binary_digits q (String (bit_char b) acc))
      = Some (bit_char (match S (Pos.size_nat q) - 1 - j with
                        | 0 => b
                        | S n' => Pos.testbit_nat q n'
                        end))).
  { intros q b acc IH j Hj.
    destruct (decide (j < Pos.size_nat q)) as [Hlt|Hge].
    - rewrite IH by done.
      replace (S (Pos.size_nat q) - 1 - j) with (S (Pos.size_nat q - 1 - j)) by lia.
      done.
    - assert (j = Pos.size_nat q) as -> by lia.
      replace (S (Pos.size_nat q) - 1 - Pos.size_nat q) with 0 by lia.
      rewrite <-(Nat.add_0_r (Pos.size_nat q)) at 1.
      by rewrite get_binary_digits_acc. }
  induction p as [p IH|p IH|]; intros acc j Hj; simpl in Hj |- *.
  - apply (Hstep p true acc IH j Hj).
  - apply (Hstep p false acc IH j Hj).
  - by assert (j = 0) as -> by lia.
Qed.

Lemma testbit_nat_above_size p n : Pos.size_nat p ≤ n → Pos.testbit_nat p n = false.
Proof.
  revert n; induction p as [p IH|p IH|]; intros [|n] H; simpl in *; try lia;
    try done; apply IH; lia.
Qed.

Lemma size_nat_bound p k : Pos.to_nat p < 2 ^ k → Pos.size_nat p ≤ k.
Proof.
  revert k; induction p as [p IH|p IH|]; intros [|k] H; simpl in *; try lia.
  - rewrite Pos2Nat.inj_xI in H. specialize (IH k). lia.
  - rewrite Pos2Nat.inj_xO in H. specialize (IH k). lia.
Qed.

Lemma testbit_nat_to_nat p n : Pos.testbit_nat p n = Nat.testbit (Pos.to_nat p) n.
Proof.
  revert n; induction p as [p IH|p IH|]; intros [|n].
  - rewrite Pos2Nat.inj_xI. simpl Pos.testbit_nat.
    by rewrite <-Nat.add_1_r, Nat.testbit_odd_0.
  - rewrite Pos2Nat.inj_xI. simpl Pos.testbit_nat.
    rewrite <-Nat.add_1_r, Nat.testbit_odd_succ by lia. apply IH.
  - rewrite Pos2Nat.inj_xO. simpl Pos.testbit_nat. by rewrite Nat.testbit_even_0.
  - rewrite Pos2Nat.inj_xO. simpl Pos.testbit_nat.
    rewrite Nat.testbit_even_succ by lia. apply IH.
  - done.
  - simpl Pos.testbit_nat. change (Pos.to_nat 1) with 1.
    change (Nat.testbit 1 (S n)) with (Nat.testbit 0 n). by rewrite Nat.bits_0.
Qed.

(** [format(i, '0kb')] for [i < 2^k]: the character at index [j < k] is
    the bit of weight [k - 1 - j] of [i]. *)
Lemma get_format_b (i k j : nat) :
  i < 2 ^ k → j < k →
  String.get j (format_b i k) = Some (bit_char (Nat.testbit i (k - 1 - j))).
Proof.
  intros Hi Hj. unfold format_b.
  destruct (N.of_nat i) as [|p] eqn:Hp.
  - assert (i = 0) as -> by lia. rewrite Nat.bits_0. simpl String.length.
    rewrite get_append, length_zeros. case_decide.
    + by apply get_zeros.
    + by replace (j - (k - 1)) with 0 by lia.
  - assert (Pos.to_nat p = i) as Hpi by lia.
    pose proof (size_nat_bound p k ltac:(by rewrite Hpi)) as Hsz.
    rewrite get_append, length_zeros, length_binary_digits; simpl String.length.
    rewrite Nat.add_0_r. case_decide as Hc.
    + rewrite get_zeros by done.
      by rewrite <-Hpi, <-testbit_nat_to_nat, testbit_nat_above_size by lia.
    + rewrite get_binary_digits by lia.
      rewrite testbit_nat_to_nat, Hpi. do 3 f_equal. lia.
Qed.

End Binary.

Section TruthTable.

Implicit Types (vars : list string) (vv row : gmap string bool).

Lemma assign_lookup_other binary vars :
  ∀ j vv var, var ∉ vars → assign binary j vars vv !! var = vv !! var.
Proof.
  induction vars as [|x vars IH]; intros j vv var Hnot; [done|]; simpl.
  apply not_elem_of_cons in Hnot as [Hne Hnot].
  by rewrite IH, lookup_insert_ne.
Qed.

(** With distinct variables, the loop leaves at [vars[m]] the test of the
    character at index [j + m]. *)
Lemma assign_lookup binary vars :
  ∀ j vv m var,
    NoDup vars → vars !! m = Some var →
    assign binary j vars vv !! var
    = Some (bool_decide (String.get (j + m) binary = Some "1"%char)).
Proof.
  induction vars as [|x vars IH]; intros j vv m var Hnd Hm; [done|]; simpl.
  apply NoDup_cons in Hnd as [Hx Hnd].
  destruct m as [|m]; simplify_eq/=.
  - by rewrite assign_lookup_other, lookup_insert_eq, Nat.add_0_r.
  - rewrite (IH (S j) _ m var Hnd Hm). by rewrite Nat.add_succ_r.
Qed.

Lemma row_of_lookup vars vv var :
  row_of vars vv !! var = if decide (var ∈ vars) then Some (vv !!! var) else None.
Proof.
  unfold row_of.
  assert (H : ∀ acc,
    foldl (λ row x, <[x := vv !!! x]> row) acc vars !! var
    = if decide (var ∈ vars) then Some (vv !!! var) else acc !! var).
  { induction vars as [|x vars IH]; intros acc; cbn [foldl].
    - destruct (decide (var ∈ [])) as [Hin%elem_of_nil|_]; done.
    - rewrite IH.
      destruct (decide (var ∈ vars)) as [Hin|Hnin],
               (decide (var ∈ x :: vars)) as [Hin'|Hnin']; try done.
      + exfalso. apply Hnin'. by right.
      + apply elem_of_cons in Hin' as [->|?]; [|done].
        by rewrite lookup_insert_eq.
      + rewrite lookup_insert_ne; [done|].
        intros ->. apply Hnin'. by left. }
  rewrite H. by case_decide.
Qed.

Lemma bit_char_one b : bool_decide (Some (bit_char b) = Some "1"%char) = b.
Proof. by destruct b. Qed.


Lemma assignment_lookup circuit i j var :
  NoDup (inputs circuit) → i < 2 ^ length (inputs circuit) →
  inputs circuit !! j = Some var →
  assignment circuit i !! var
  = Some (Nat.testbit i (length (inputs circuit) - 1 - j)).
Proof.
  intros Hnd Hi Hj. unfold assignment.
  rewrite (assign_lookup _ _ 0 ∅ j var Hnd Hj); simpl.
  rewrite get_format_b by eauto using lookup_lt_Some.
  by rewrite bit_char_one.
Qed.

(** The truth table of a circuit whose [inputs] are pairwise distinct:
    there are [2 ^ k] rows; row [i] holds, under ["Output"], the value of
    the output gate under the assignment that gives [inputs[j]] the bit of
    weight [k - 1 - j] of [i], and, under every variable other than
    ["Output"], the value this assignment gives it. *)
Theorem truth_table_spec (circuit : Circuit) :
  let k := length (inputs circuit) in
  NoDup (inputs circuit) →
  length (generate_truth_table circuit) = 2 ^ k
  ∧ ∀ i, i < 2 ^ k →
      ∃ row,
        generate_truth_table circuit !! i = Some row
        ∧ row !! "Output"
          = Some (Gate.evaluate (output_gate circuit) (assignment circuit i))
        ∧ ∀ j var,
            inputs circuit !! j = Some var →
            assignment circuit i !! var = Some (Nat.testbit i (k - 1 - j))
            ∧ (var ≠ "Output" → row !! var = Some (Nat.testbit i (k - 1 - j))).
Proof.
  intros k Hnd. unfold generate_truth_table. fold k.
  split; [by rewrite length_fmap, length_seq|].
  intros i Hi. exists (table_row circuit i). split_and!.
  - by rewrite list_lookup_fmap, lookup_seq_lt.
  - unfold table_row. by rewrite lookup_insert_eq.
  - intros j var Hj.
    pose proof (assignment_lookup circuit i j var Hnd Hi Hj) as Hbit.
    split; [done|]. intros Hne.
    unfold table_row. rewrite lookup_insert_ne by done.
    rewrite row_of_lookup, decide_True by eauto using list_elem_of_lookup_2.
    fold (assignment circuit i). by rewrite (lookup_total_correct _ _ _ Hbit).
Qed.

End TruthTable.

(** C3: row [i] is meant to give every input its bit of [i] and to hold the
    output next to it. The row is one dictionary, and the output is stored
    in it under the key ["Output"] after the variables: for the circuit of
    [NOT Output], whose single input is named [Output], row 0 holds [true]
    for that variable, and row 1 [false], where bit 0 of 0 is [false] and
    bit 0 of 1 is [true]. *)
Theorem C3_output_key_overwrites_variable :
  ∃ c : Circuit,
    circuit_of "NOT Output" = Some c
    ∧ inputs c = ["Output"]
    ∧ generate_truth_table c = [{["Output" := true]}; {["Output" := false]}]
    ∧ assignment c 0 !! "Output" = Some (Nat.testbit 0 0)
    ∧ table_row c 0 !! "Output" = Some true
    ∧ Nat.testbit 0 0 = false
    ∧ table_row c 1 !! "Output" = Some false
    ∧ Nat.testbit 1 0 = true.
Proof.
  eexists. split; [by vm_compute|]. split_and!; by vm_compute.
Qed.

(** ** Parser: termination and provenance of identifiers *)


Section Hoare.


Lemma triple_ret {A} (P : LogicParser → Prop) (a : A) (Q : A → LogicParser → Prop) :
  (∀ self, P self → Q a self) → triple P (ret a) Q.
Proof. intros H self HP. by apply H. Qed.

Lemma triple_bind {A B} (P : LogicParser → Prop) (R : A → LogicParser → Prop)
  (Q : B → LogicParser → Prop) (c : M A) (k : A → M B) :
  triple P c R → (∀ a, triple (R a) (k a) Q) → triple P (bind c k) Q.
Proof.
  intros Hc Hk self HP. unfold bind. specialize (Hc self HP).
  destruct (c self) as [[a|msg|] self']; [|done..].
  by apply Hk.
Qed.

Lemma triple_weaken {A} (P P' : LogicParser → Prop) (Q Q' : A → LogicParser → Prop)
  (c : M A) :
  triple P' c Q' → (∀ self, P self → P' self) → (∀ a self, Q' a self → Q a self) →
  triple P c Q.
Proof.
  intros Hc HP HQ self Hself. specialize (Hc self (HP _ Hself)).
  destruct (c self) as [[a|msg|] self']; [|done..]. by apply HQ.
Qed.

(** Reasoning on one parser object. *)
Lemma triple_at {A} (c : M A) (Q : A → LogicParser → Prop) (self : LogicParser) :
  triple (λ s, s = self) c Q →
  match c self with
  | (Return a, self') => Q a self'
  | (Raise _, _) => True
  | (Diverge, _) => False
  end.
Proof. intros H. by apply H. Qed.

End Hoare.

Section Provenance.

Lemma slice_from_split (p : nat) (e : string) :
  ∃ pre, e = pre +:+ Regex.slice_from p e.
Proof.
  revert p; induction e as [|c e IH]; intros [|p]; simpl;
    try (by exists ""). 
  destruct (IH p) as [pre Hpre]. exists (String c pre).
  change (String c pre +:+ Regex.slice_from p e)
    with (String c (pre +:+ Regex.slice_from p e)).
  by rewrite <-Hpre.
Qed.

Lemma ident_tail_split (s : string) :
  ∃ post, s = Regex.ident_tail s +:+ post ∧ all_ident_chars (Regex.ident_tail s) = true.
Proof.
  induction s as [|c s (post & Hpost & Hall)]; simpl.
  - by exists "".
  - destruct (Regex.ident_char c) eqn:Hc.
    + exists post. split.
      * change (String c (Regex.ident_tail s) +:+ post)
          with (String c (Regex.ident_tail s +:+ post)).
        by rewrite <-Hpost.
      * simpl. by rewrite Hc.
    + by exists (String c s).
Qed.

Lemma match_identifier_spec (p : nat) (e group : string) :
  Regex.match_identifier (Regex.slice_from p e) = Some group →
  is_identifier group = true ∧ occurs group e ∧ 0 < String.length group.
Proof.
  destruct (slice_from_split p e) as [pre Hpre].
  destruct (Regex.slice_from p e) as [|c s]; simpl; [done|].
  destruct (Regex.ident_start c) eqn:Hc; [|done].
  intros [= <-]. destruct (ident_tail_split s) as (post & Hpost & Hall).
  split_and!.
  - simpl. by rewrite Hc.
  - exists pre, post.
    change (String c (Regex.ident_tail s) +:+ post)
      with (String c (Regex.ident_tail s +:+ post)).
    by rewrite <-Hpost.
  - simpl; lia.
Qed.

Lemma match_keyword_spec (s group : string) :
  Regex.match_keyword s = Some group →
  0 < String.length group ∧ ∀ v, token_of_keyword group ≠ TOK_IDENTIFIER v.
Proof.
  unfold Regex.match_keyword.
  repeat (case_match; [intros [= <-]; split; [simpl; lia|done]|]).
  done.
Qed.

Lemma match_paren_spec (s group : string) :
  Regex.match_paren s = Some group → String.length group = 1.
Proof.
  destruct s as [|c s]; [done|]. simpl.
  destruct c as [[] [] [] [] [] [] [] []]; by intros [= <-].
Qed.

End Provenance.

Section ParserInvariant.

(** The source string being parsed. *)
Variable e : string.


Lemma inv_mono m m' self : inv e m self → m ≤ m' → inv e m' self.
Proof. intros (? & ? & ?) ?. split_and!; [done|lia|done]. Qed.

Lemma inv_token_pos m self tok :
  inv e m self → current_token self = Some tok → ∃ m0, m = S m0.
Proof.
  intros (_ & Hp & _) Htok. unfold pending in Hp. rewrite Htok in Hp.
  destruct m as [|m0]; [lia|by exists m0].
Qed.

(** [next_token] keeps the invariant and uses up the pending token. *)
Lemma next_token_pending m self :
  inv e m self →
  match next_token self with
  | (Return _, self') =>
      inv e (m - match current_token self with Some _ => 1 | None => 0 end) self'
  | (Raise _, _) => True
  | (Diverge, _) => False
  end.
Proof.
  intros (He & Hp & Htok). unfold next_token, pending in *.
  set (p := pos self + _).
  assert (pos self ≤ p) by (unfold p; lia).
  destruct (decide _) as [Hle|Hgt].
  { split_and!; simpl; [done| |done].
    unfold pending; simpl. destruct (current_token self); lia. }
  destruct (Regex.match_paren _) as [group|] eqn:Hparen.
  { apply match_paren_spec in Hparen.
    split_and!; simpl; [done| |by case_decide].
    unfold pending; simpl. destruct (current_token self); lia. }
  destruct (Regex.match_keyword _) as [group|] eqn:Hkw.
  { apply match_keyword_spec in Hkw as [Hlen Hnot].
    split_and!; simpl; [done| |].
    - unfold pending; simpl. destruct (current_token self); lia.
    - intros v [= Hv]. by destruct (Hnot v). }
  destruct (Regex.match_identifier _) as [group|] eqn:Hid; [|done].
  rewrite He in Hid. apply match_identifier_spec in Hid as (Hshape & Hocc & Hlen).
  split_and!; simpl; [done| |].
  - unfold pending; simpl. destruct (current_token self); lia.
  - by intros v [= <-].
Qed.

Lemma next_token_triple m :
  triple (inv e m) next_token (λ _ self', inv e m self').
Proof.
  intros self Hinv. pose proof (next_token_pending m self Hinv) as H.
  destruct (next_token self) as [[[]|msg|] self']; [|done..].
  eapply inv_mono; [done|lia].
Qed.

Lemma next_token_triple_consume m :
  triple (λ self, inv e (S m) self ∧ is_Some (current_token self)) next_token
    (λ _ self', inv e m self').
Proof.
  intros self [Hinv [tok Htok]].
  pose proof (next_token_pending (S m) self Hinv) as H. rewrite Htok in H.
  destruct (next_token self) as [[[]|msg|] self']; [|done..].
  eapply inv_mono; [done|lia].
Qed.


Lemma node_ok_binary (mk : Node → Node → Node) a b :
  identifiers (mk a b) = identifiers a ++ identifiers b →
  node_ok e a → node_ok e b → node_ok e (mk a b).
Proof. unfold node_ok. intros -> ??. by apply Forall_app. Qed.

(** The loop shared by [term] and [expr]: [op] is the operator token and
    [mk] the node it builds. *)
Lemma loop_good (loop : M Node → nat → Node → M Node) (op : Token)
  (mk : Node → Node → Node) (n : nat) (sub : M Node) :
  (∀ k left self,
     loop sub k left self
     = if decide (current_token self = Some op) then
         match k with
         | 0 => (Diverge, self)
         | S k' =>
             (next_token >>
              let* right := sub in
              loop sub k' (mk left right)) self
         end
       else (Return left, self)) →
  (∀ a b, identifiers (mk a b) = identifiers a ++ identifiers b) →
  good e n sub →
  ∀ k m left, m ≤ k → m ≤ n → node_ok e left →
    triple (inv e m) (loop sub k left) (node_post e m).
Proof.
  intros Hloop Hmk Hsub.
  induction k as [|k IH]; intros m left Hk Hn Hleft self Hinv;
    rewrite Hloop; case_decide as Htok; try done.
  - destruct (inv_token_pos _ _ _ Hinv Htok) as [m0 ->]. lia.
  - destruct (inv_token_pos _ _ _ Hinv Htok) as [m0 ->].
    apply triple_at.
    eapply triple_weaken with
      (P' := λ s, inv e (S m0) s ∧ is_Some (current_token s))
      (Q' := node_post e m0).
    + eapply triple_bind; [apply next_token_triple_consume|].
      intros []. eapply triple_bind; [apply Hsub; lia|].
      intros r s [Hs Hr].
      apply (IH m0 (mk left r)); [lia|lia| |done].
      by apply node_ok_binary.
    + intros s ->. split; [done|by rewrite Htok].
    + intros node s [Hs Hnode]. split; [|done]. eapply inv_mono; [done|lia].
Qed.

End ParserInvariant.

Section ParserTotal.

Variable e : string.

Lemma term_loop_unfold (sub : M Node) (k : nat) (left : Node) (self : LogicParser) :
  term_loop sub k left self
  = if decide (current_token self = Some TOK_AND) then
      match k with
      | 0 => (Diverge, self)
      | S k' =>
          (next_token >>
           let* right := sub in
           term_loop sub k' (AND left right)) self
      end
    else (Return left, self).
Proof.
  destruct k; simpl; destruct (current_token self) as [[]|]; by case_decide.
Qed.

Lemma expr_loop_unfold (sub : M Node) (k : nat) (left : Node) (self : LogicParser) :
  expr_loop sub k left self
  = if decide (current_token self = Some TOK_OR) then
      match k with
      | 0 => (Diverge, self)
      | S k' =>
          (next_token >>
           let* right := sub in
           expr_loop sub k' (OR left right)) self
      end
    else (Return left, self).
Proof.
  destruct k; simpl; destruct (current_token self) as [[]|]; by case_decide.
Qed.

Lemma term_with_good (n : nat) (sub : M Node) :
  good e n sub → good e n (term_with sub n).
Proof.
  intros Hsub m Hm. unfold term_with.
  eapply triple_bind; [by apply Hsub|].
  intros left self [Hinv Hleft].
  apply (loop_good e term_loop TOK_AND AND n sub); try done; try lia.
  apply term_loop_unfold.
Qed.

Lemma expr_with_good (n : nat) (sub : M Node) :
  good e n sub → good e n (expr_with sub n).
Proof.
  intros Hsub m Hm. unfold expr_with.
  eapply triple_bind; [by apply Hsub|].
  intros left self [Hinv Hleft].
  apply (loop_good e expr_loop TOK_OR OR n sub); try done; try lia.
  apply expr_loop_unfold.
Qed.

(** [factor] with fuel [n] serves every parser object that has less than
    [n] left to read. *)
Lemma factor_good (n : nat) : good e n (factor n).
Proof.
  induction n as [|n IH]; intros m Hm; [lia|].
  intros self Hinv. simpl.
  destruct (current_token self) as [tok|] eqn:Htok; [|done].
  destruct (inv_token_pos _ _ _ _ Hinv Htok) as [m0 ->].
  assert (Hpre : inv e (S m0) self ∧ is_Some (current_token self))
    by (by rewrite Htok).
  assert (Hup : ∀ node s, node_post e m0 node s → inv e (S m0) s ∧ node_ok e node).
  { intros node s [Hs Hnode]. split; [|done]. eapply inv_mono; [done|lia]. }
  destruct tok as [| | | | |value]; try done.
  - (* '(' expr ')' *)
    apply triple_at.
    eapply triple_weaken with
      (P' := λ s, inv e (S m0) s ∧ is_Some (current_token s))
      (Q' := node_post e m0);
      [|by intros s ->|exact Hup].
    eapply triple_bind; [apply next_token_triple_consume|].
    intros []. eapply triple_bind.
    { apply (expr_with_good n _ (term_with_good n _ IH) m0). lia. }
    intros node s [Hs Hnode].
    destruct (current_token s) as [[]|] eqn:Hclose; try done.
    apply triple_at. eapply triple_bind with (R := λ _ s', inv e m0 s').
    + eapply triple_weaken; [apply (next_token_triple e m0)| |done].
      by intros s' ->.
    + intros []. by apply triple_ret.
  - (* NOT factor *)
    apply triple_at.
    eapply triple_weaken with
      (P' := λ s, inv e (S m0) s ∧ is_Some (current_token s))
      (Q' := node_post e m0);
      [|by intros s ->|exact Hup].
    eapply triple_bind; [apply next_token_triple_consume|].
    intros []. eapply triple_bind; [apply IH; lia|].
    intros r. apply triple_ret. by intros s [Hs Hr].
  - (* IDENTIFIER *)
    apply triple_at.
    eapply triple_weaken with
      (P' := λ s, inv e (S m0) s ∧ is_Some (current_token s))
      (Q' := node_post e m0);
      [|by intros s ->|exact Hup].
    eapply triple_bind; [apply next_token_triple_consume|].
    intros []. apply triple_ret. intros s Hs. split; [done|].
    destruct Hinv as (_ & _ & Hok). constructor; [|constructor].
    by apply Hok.
Qed.

Lemma parse_with_triple :
  triple (λ self, self = new_parser e) (parse_with (parse_fuel e))
    (λ node self', expression self' = e ∧ node_ok e node).
Proof.
  unfold parse_with, parse_fuel.
  eapply triple_bind with (R := λ _ s, inv e (String.length e) s).
  - eapply triple_weaken; [apply (next_token_triple e (String.length e))| |done].
    intros self ->. split_and!; [done| |done].
    unfold pending; simpl; lia.
  - intros []. eapply triple_weaken.
    + apply (expr_with_good _ _ (term_with_good _ _ (factor_good _))
               (String.length e)).
      lia.
    + done.
    + by intros node s [(? & _) ?].
Qed.

(** [parse] never runs out of fuel: it returns a tree or raises. *)
Lemma parse_terminates : parse e ≠ Diverge.
Proof.
  pose proof (parse_with_triple (new_parser e) eq_refl) as H.
  unfold parse, run_parse. by destruct (parse_with _ _) as [[?|?|] ?].
Qed.

(** The identifiers of a returned tree are identifier-shaped pieces of the
    source string. *)
Lemma parse_identifiers (tree : Node) :
  parse e = Return tree → node_ok e tree.
Proof.
  pose proof (parse_with_triple (new_parser e) eq_refl) as H.
  unfold parse, run_parse. destruct (parse_with _ _) as [[?|?|] ?]; try done.
  simpl. intros [= <-]. by destruct H.
Qed.

End ParserTotal.

(** ** The fuel does not matter *)

Section Fuel.

Lemma refines_refl {A} (c : M A) : refines c c.
Proof. by intros self r self' H _. Qed.

Lemma refines_bind {A B} (c c' : M A) (k k' : A → M B) :
  refines c c' → (∀ a, refines (k a) (k' a)) →
  refines (bind c k) (bind c' k').
Proof.
  intros Hc Hk self r self' H Hr. unfold bind in *.
  destruct (c self) as [[a|msg|] s1] eqn:Hcs.
  - rewrite (Hc _ _ _ Hcs) by done. by apply Hk.
  - rewrite (Hc _ _ _ Hcs) by done. done.
  - by simplify_eq.
Qed.

Lemma term_loop_mono (sub sub' : M Node) :
  refines sub sub' →
  ∀ k k' left, k ≤ k' → refines (term_loop sub k left) (term_loop sub' k' left).
Proof.
  intros Hsub. induction k as [|k IH]; intros k' left Hk self r self';
    rewrite !term_loop_unfold; case_decide; try done.
  - by intros [= <- <-].
  - destruct k' as [|k']; [lia|].
    apply refines_bind; [apply refines_refl|]. intros [].
    apply refines_bind; [done|]. intros right. apply IH. lia.
Qed.

Lemma expr_loop_mono (sub sub' : M Node) :
  refines sub sub' →
  ∀ k k' left, k ≤ k' → refines (expr_loop sub k left) (expr_loop sub' k' left).
Proof.
  intros Hsub. induction k as [|k IH]; intros k' left Hk self r self';
    rewrite !expr_loop_unfold; case_decide; try done.
  - by intros [= <- <-].
  - destruct k' as [|k']; [lia|].
    apply refines_bind; [apply refines_refl|]. intros [].
    apply refines_bind; [done|]. intros right. apply IH. lia.
Qed.

Lemma term_with_mono (sub sub' : M Node) (k k' : nat) :
  refines sub sub' → k ≤ k' → refines (term_with sub k) (term_with sub' k').
Proof.
  intros Hsub Hk. apply refines_bind; [done|].
  intros left. by apply term_loop_mono.
Qed.

Lemma expr_with_mono (sub sub' : M Node) (k k' : nat) :
  refines sub sub' → k ≤ k' → refines (expr_with sub k) (expr_with sub' k').
Proof.
  intros Hsub Hk. apply refines_bind; [done|].
  intros left. by apply expr_loop_mono.
Qed.

Lemma factor_mono (n : nat) : ∀ n', n ≤ n' → refines (factor n) (factor n').
Proof.
  induction n as [|n IH]; intros n' Hn self r self'.
  - by intros [= <- <-].
  - destruct n' as [|n']; [lia|]. simpl.
    assert (Hf : refines (factor n) (factor n')) by (apply IH; lia).
    destruct (current_token self) as [[| | | | |value]|]; try done.
    + apply refines_bind; [apply refines_refl|]. intros [].
      apply refines_bind; [|intros node; apply refines_refl].
      apply expr_with_mono; [|lia]. apply term_with_mono; [done|lia].
    + apply refines_bind; [apply refines_refl|]. intros [].
      apply refines_bind; [done|]. intros right. apply refines_refl.
Qed.

(** More fuel than [parse_fuel] changes nothing. *)
Lemma parse_fuel_irrelevant (e : string) (n : nat) :
  parse_fuel e ≤ n → parse_with n (new_parser e) = run_parse e.
Proof.
  intros Hn. pose proof (parse_terminates e) as Hterm.
  unfold parse, run_parse in *.
  destruct (parse_with (parse_fuel e) (new_parser e)) as [r self'] eqn:Hrun.
  assert (Href : refines (parse_with (parse_fuel e)) (parse_with n)).
  { apply refines_bind; [apply refines_refl|]. intros [].
    apply expr_with_mono; [|done]. apply term_with_mono; [|done].
    by apply factor_mono. }
  by apply Href.
Qed.

End Fuel.

(** ** Parsed expressions have a variable *)

Lemma identifiers_nonempty (node : Node) : ∃ v, v ∈ identifiers node.
Proof.
  induction node as [v|a [v Hv]|a [v Hv] b _|a [v Hv] b _]; simpl.
  - exists v. by left.
  - by exists v.
  - exists v. apply elem_of_app. by left.
  - exists v. apply elem_of_app. by left.
Qed.

Lemma truth_table_length (circuit : Circuit) :
  length (generate_truth_table circuit) = 2 ^ length (inputs circuit).
Proof. unfold generate_truth_table. by rewrite length_fmap, length_seq. Qed.

(** C10: when [parse] returns a tree, the tree has an identifier leaf, which
    is an identifier-shaped piece of the source string; the circuit built
    from the tree has at least one gate and at least one input, and its
    truth table has at least two rows. *)
Theorem C10_parsed_has_variable (e : string) (tree : Node) :
  parse e = Return tree →
  let c := build tree in
  (∃ v, v ∈ identifiers tree ∧ is_identifier v = true ∧ occurs v e)
  ∧ circuit_gates c ≠ []
  ∧ inputs c ≠ []
  ∧ 1 ≤ length (inputs c)
  ∧ 2 ≤ length (generate_truth_table c).
Proof.
  intros Hparse c.
  destruct (identifiers_nonempty tree) as [v Hv].
  pose proof (parse_identifiers e tree Hparse) as Hok.
  destruct (build_spec tree) as (Hshape & Hpost & _ & Hin). fold c in Hshape, Hpost, Hin.
  destruct (sorted_spec (list_to_set (identifiers tree))) as (_ & _ & Hel & _).
  assert (Hvin : v ∈ inputs c) by (by rewrite Hin, Hel, elem_of_list_to_set).
  assert (Hk : 1 ≤ length (inputs c)).
  { destruct (inputs c); [by apply elem_of_nil in Hvin|simpl; lia]. }
  split_and!.
  - exists v. split; [done|].
    unfold node_ok in Hok. rewrite Forall_forall in Hok. by apply Hok.
  - rewrite Hpost. pose proof (subgates_length_pos (output_gate c)) as Hpos.
    intros Heq. rewrite Heq in Hpos. simpl in Hpos. lia.
  - intros Heq. rewrite Heq in Hk. simpl in Hk. lia.
  - done.
  - rewrite truth_table_length.
    pose proof (Nat.pow_le_mono_r 2 1 (length (inputs c)) ltac:(lia) Hk) as Hpow.
    by rewrite Nat.pow_1_r in Hpow.
Qed.

Lemma C10_parsed_has_variable_witness :
  let c := build (NOT (IDENTIFIER "x")) in
  (∃ v, v ∈ identifiers (NOT (IDENTIFIER "x")) ∧ is_identifier v = true
        ∧ occurs v "NOT x")
  ∧ circuit_gates c ≠ []
  ∧ inputs c ≠ []
  ∧ 1 ≤ length (inputs c)
  ∧ 2 ≤ length (generate_truth_table c).
Proof.
  apply (C10_parsed_has_variable "NOT x" (NOT (IDENTIFIER "x"))).
  by vm_compute.
Defined.

(** * Further properties of the circuit generator *)

Section Meaning.

Implicit Types (g : Gate.t) (vv : gmap string bool).

Lemma evaluate_shape g vv : Gate.evaluate g vv = denote (shape g) vv.
Proof.
  induction g as [n v|n a IHa|n a IHa b IHb|n a IHa b IHb]; simpl.
  - apply evaluate_Input.
  - by rewrite evaluate_Not, IHa.
  - by rewrite evaluate_And, IHa, IHb.
  - by rewrite evaluate_Or, IHa, IHb.
Qed.

Lemma denote_agree (node : Node) vv vv' :
  (∀ v, v ∈ identifiers node → default false (vv !! v) = default false (vv' !! v)) →
  denote node vv = denote node vv'.
Proof.
  induction node as [v|a IHa|a IHa b IHb|a IHa b IHb]; intros H; simpl in *.
  - apply H. by left.
  - by rewrite IHa.
  - rewrite IHa, IHb; [done|intros v Hv; apply H, elem_of_app; auto..].
  - rewrite IHa, IHb; [done|intros v Hv; apply H, elem_of_app; auto..].
Qed.

Lemma subgates_count g : length (Gate.subgates g) = node_count (shape g).
Proof.
  induction g as [n v|n a IHa|n a IHa b IHb|n a IHa b IHb]; simpl;
    rewrite ?length_app, ?IHa, ?IHb; simpl; lia.
Qed.

End Meaning.

(** Lowering a parse tree to gates keeps its meaning: under every
    assignment, total or partial, the output gate of the built circuit
    evaluates to the Boolean value of the tree. In particular a double
    negation evaluates like its operand. *)
Theorem build_preserves_meaning (tree : Node) (vv : gmap string bool) :
  Gate.evaluate (output_gate (build tree)) vv = denote tree vv
  ∧ Gate.evaluate (output_gate (build (NOT (NOT tree)))) vv
    = Gate.evaluate (output_gate (build tree)) vv.
Proof.
  assert (H : ∀ t, Gate.evaluate (output_gate (build t)) vv = denote t vv).
  { intros t. destruct (build_spec t) as (Hshape & _).
    by rewrite evaluate_shape, Hshape. }
  split; [apply H|]. rewrite !H. simpl. apply negb_involutive.
Qed.

(** The value of a gate depends only on the variables of its input gates:
    two assignments that give those variables the same values, a missing
    variable counting as [false], give the same result. *)
Theorem evaluate_only_reads_its_variables (g : Gate.t) (vv vv' : gmap string bool) :
  (∀ v, v ∈ omap Gate.variable (Gate.subgates g) →
        default false (vv !! v) = default false (vv' !! v)) →
  Gate.evaluate g vv = Gate.evaluate g vv'.
Proof.
  intros H. rewrite !evaluate_shape. apply denote_agree.
  intros v Hv. apply H. by rewrite variables_of_shape.
Qed.

Lemma evaluate_only_reads_its_variables_witness :
  Gate.evaluate (Gate.Not 1 (Gate.Input 0 "A")) {["B" := true]}
  = Gate.evaluate (Gate.Not 1 (Gate.Input 0 "A")) {["A" := false; "C" := true]}.
Proof.
  apply evaluate_only_reads_its_variables.
  intros v Hv. simpl in Hv. apply list_elem_of_singleton in Hv as ->.
  by vm_compute.
Defined.

(** The circuit has exactly one gate per node of the parse tree. *)
Theorem build_gate_count (tree : Node) :
  length (circuit_gates (build tree)) = node_count tree.
Proof.
  destruct (build_spec tree) as (Hshape & Hpost & _).
  by rewrite Hpost, subgates_count, Hshape.
Qed.

(** [generate] on a generator that is not fresh: the returned gate list is
    the old list followed by the post-order list of the new tree, the new
    gates are numbered from the old counter on, and [inputs] also lists the
    variables that were already in [input_variables]. *)
Theorem generate_accumulates (self : CircuitGenerator) :
  let '(c, self') := generate self in
  shape (output_gate c) = parse_tree self
  ∧ circuit_gates c = gates self ++ Gate.subgates (output_gate c)
  ∧ Gate.gate_id <$> Gate.subgates (output_gate c)
    = seq (gate_counter self) (node_count (parse_tree self))
  ∧ gate_counter self' = gate_counter self + node_count (parse_tree self)
  ∧ (∀ v, v ∈ inputs c ↔ v ∈ identifiers (parse_tree self) ∨ v ∈ input_variables self)
  ∧ gates self' = circuit_gates c.
Proof.
  unfold generate.
  destruct (_build_circuit (parse_tree self) self) as [g s1] eqn:Hb.
  destruct (build_circuit_spec _ _ _ _ Hb) as (Hs & Hg & Hc & Hid & Hv & Ht).
  destruct (sorted_spec (input_variables s1)) as (_ & _ & Hel & _).
  simpl.
  assert (Hn : node_count (parse_tree self) = length (Gate.subgates g))
    by (by rewrite subgates_count, Hs).
  rewrite Hn. split_and!; try done.
  intros v. by rewrite Hel, Hv, elem_of_union, elem_of_list_to_set.
Qed.

(** * Further properties of the truth table *)

Section TableRows.

Implicit Types (c : Circuit) (vv : gmap string bool).

Lemma table_lookup c i :
  i < 2 ^ length (inputs c) → generate_truth_table c !! i = Some (table_row c i).
Proof.
  intros Hi. unfold generate_truth_table. by rewrite list_lookup_fmap, lookup_seq_lt.
Qed.

Lemma table_lookup_inv c i row :
  generate_truth_table c !! i = Some row →
  i < 2 ^ length (inputs c) ∧ row = table_row c i.
Proof.
  intros H. pose proof (lookup_lt_Some _ _ _ H) as Hlt.
  rewrite truth_table_length in Hlt. split; [done|].
  rewrite table_lookup in H by done. by injection H.
Qed.

Lemma table_row_output c i :
  table_row c i !! "Output"
  = Some (Gate.evaluate (output_gate c) (assignment c i)).
Proof. unfold table_row. by rewrite lookup_insert_eq. Qed.

Lemma table_row_variable c i j var :
  NoDup (inputs c) → i < 2 ^ length (inputs c) →
  inputs c !! j = Some var → var ≠ "Output" →
  table_row c i !! var = Some (Nat.testbit i (length (inputs c) - 1 - j)).
Proof.
  intros Hnd Hi Hj Hne.
  pose proof (assignment_lookup c i j var Hnd Hi Hj) as Hbit.
  unfold table_row. rewrite lookup_insert_ne by done.
  rewrite row_of_lookup, decide_True by eauto using list_elem_of_lookup_2.
  fold (assignment c i). by rewrite (lookup_total_correct _ _ _ Hbit).
Qed.

Lemma table_row_dom c i :
  dom (table_row c i) = {["Output"]} ∪ list_to_set (inputs c).
Proof.
  apply set_eq. intros v.
  rewrite elem_of_dom, elem_of_union, elem_of_singleton, elem_of_list_to_set.
  unfold table_row. destruct (decide (v = "Output")) as [->|Hne].
  - rewrite lookup_insert_eq. split; [by left|by eexists].
  - rewrite lookup_insert_ne, row_of_lookup by done.
    case_decide as Hin; split; try done.
    + by right.
    + by intros [?|?].
Qed.

(** Two numbers below [2 ^ k] that differ, differ in a bit below [k]. *)
Lemma bits_differ k :
  ∀ i j, i < 2 ^ k → j < 2 ^ k → i ≠ j →
    ∃ n, n < k ∧ Nat.testbit i n ≠ Nat.testbit j n.
Proof.
  induction k as [|k IH]; intros i j Hi Hj Hne; simpl in Hi, Hj; [lia|].
  destruct (decide (Nat.odd i = Nat.odd j)) as [Hodd|Hodd].
  - destruct (IH (Nat.div2 i) (Nat.div2 j)) as (n & Hn & Hbit).
    + pose proof (Nat.div2_odd i). destruct (Nat.odd i); simpl in *; lia.
    + pose proof (Nat.div2_odd j). destruct (Nat.odd j); simpl in *; lia.
    + intros Heq. apply Hne.
      rewrite (Nat.div2_odd i), (Nat.div2_odd j), Heq, Hodd. done.
    + exists (S n). split; [lia|done].
  - exists 0. split; [lia|done].
Qed.

(** Every choice of [k] bits is the bit pattern of a number below [2 ^ k]. *)
Lemma bits_exist k :
  ∀ f : nat → bool, ∃ i, i < 2 ^ k ∧ ∀ n, n < k → Nat.testbit i n = f n.
Proof.
  induction k as [|k IH]; intros f.
  - exists 0. split; [simpl; lia|]. intros n Hn. lia.
  - destruct (IH (λ n, f (S n))) as (i & Hi & Hbits).
    exists (2 * i + Nat.b2n (f 0)). split.
    + simpl. destruct (f 0); simpl; lia.
    + intros [|n] Hn.
      * apply Nat.testbit_0_r.
      * rewrite Nat.testbit_succ_r. apply Hbits. lia.
Qed.

End TableRows.

Lemma truth_table_spec_witness :
  let c := build (AND (IDENTIFIER "A") (IDENTIFIER "B")) in
  length (generate_truth_table c) = 2 ^ 2
  ∧ ∀ i, i < 2 ^ 2 →
      ∃ row,
        generate_truth_table c !! i = Some row
        ∧ row !! "Output" = Some (Gate.evaluate (output_gate c) (assignment c i))
        ∧ ∀ j var,
            inputs c !! j = Some var →
            assignment c i !! var = Some (Nat.testbit i (2 - 1 - j))
            ∧ (var ≠ "Output" → row !! var = Some (Nat.testbit i (2 - 1 - j))).
Proof.
  apply (truth_table_spec (build (AND (IDENTIFIER "A") (IDENTIFIER "B")))).
  apply (bool_decide_unpack _). by vm_compute.
Defined.

(** When the inputs are pairwise distinct and none is named ["Output"], the
    rows of the truth table are pairwise distinct, and every valuation of
    the inputs is found in some row. *)
Theorem truth_table_distinct_and_complete (c : Circuit) :
  NoDup (inputs c) → "Output" ∉ inputs c →
  NoDup (generate_truth_table c)
  ∧ ∀ vv : gmap string bool,
      ∃ i row,
        generate_truth_table c !! i = Some row
        ∧ ∀ var, var ∈ inputs c → row !! var = Some (default false (vv !! var)).
Proof.
  intros Hnd Hout. set (k := length (inputs c)).
  assert (Hne : ∀ var, var ∈ inputs c → var ≠ "Output") by (by intros var ? ->).
  split.
  - unfold generate_truth_table. apply NoDup_fmap_2_strong; [|apply NoDup_seq].
    intros i j Hi Hj Heq.
    apply elem_of_seq in Hi as [_ Hi], Hj as [_ Hj]. simpl in Hi, Hj.
    destruct (decide (i = j)) as [|Hij]; [done|exfalso].
    destruct (bits_differ k i j Hi Hj Hij) as (n & Hn & Hbit).
    destruct (lookup_lt_is_Some_2 (inputs c) (k - 1 - n)) as [var Hvar];
      [fold k; lia|].
    pose proof (Hne var (list_elem_of_lookup_2 _ _ _ Hvar)) as Hvne.
    pose proof (table_row_variable c i _ var Hnd Hi Hvar Hvne) as Hri.
    pose proof (table_row_variable c j _ var Hnd Hj Hvar Hvne) as Hrj.
    fold k in Hri, Hrj.
    replace (k - 1 - (k - 1 - n)) with n in Hri, Hrj by lia.
    rewrite Heq, Hrj in Hri. congruence.
  - intros vv.
    destruct (bits_exist k (λ n,
                match inputs c !! (k - 1 - n) with
                | Some var => default false (vv !! var)
                | None => false
                end)) as (i & Hi & Hbits).
    exists i, (table_row c i). split; [by apply table_lookup|].
    intros var Hvar.
    destruct (list_elem_of_lookup_1 _ _ Hvar) as [j Hj].
    pose proof (lookup_lt_Some _ _ _ Hj) as Hjk. fold k in Hjk.
    rewrite (table_row_variable c i j var Hnd Hi Hj (Hne _ Hvar)). fold k.
    rewrite Hbits by lia.
    replace (k - 1 - (k - 1 - j)) with j by lia. by rewrite Hj.
Qed.

Lemma truth_table_distinct_and_complete_witness :
  let c := build (OR (IDENTIFIER "q") (NOT (IDENTIFIER "p"))) in
  NoDup (generate_truth_table c)
  ∧ ∀ vv : gmap string bool,
      ∃ i row,
        generate_truth_table c !! i = Some row
        ∧ ∀ var, var ∈ inputs c → row !! var = Some (default false (vv !! var)).
Proof.
  apply (truth_table_distinct_and_complete
           (build (OR (IDENTIFIER "q") (NOT (IDENTIFIER "p"))))).
  - apply (bool_decide_unpack _). by vm_compute.
  - apply (bool_decide_unpack _). by vm_compute.
Defined.

(** The truth table of a tree none of whose identifiers is ["Output"]: it
    has [2 ^ k] rows for [k] distinct identifiers; each row defines exactly
    those identifiers and ["Output"], and its ["Output"] entry is the value
    of the tree under the values the row itself gives to the identifiers. *)
Theorem truth_table_of_tree (tree : Node) :
  "Output" ∉ identifiers tree →
  let table := generate_truth_table (build tree) in
  length table = 2 ^ size (list_to_set (identifiers tree) : gset string)
  ∧ ∀ i row,
      table !! i = Some row →
      dom row = {["Output"]} ∪ list_to_set (identifiers tree)
      ∧ row !! "Output" = Some (denote tree row).
Proof.
  intros Hout. set (c := build tree). intros table.
  destruct (build_spec tree) as (Hshape & _ & _ & Hin). fold c in Hshape, Hin.
  destruct (sorted_spec (list_to_set (identifiers tree))) as (_ & Hnd & Hel & Hlen).
  rewrite <-Hin in Hnd, Hel, Hlen.
  assert (Hmem : ∀ v, v ∈ inputs c ↔ v ∈ identifiers tree)
    by (intros v; by rewrite Hel, elem_of_list_to_set).
  split.
  - unfold table. by rewrite truth_table_length, Hlen.
  - intros i row Hrow. apply table_lookup_inv in Hrow as [Hi ->]. split.
    + rewrite table_row_dom. f_equal. apply set_eq. intros v.
      by rewrite !elem_of_list_to_set.
    + rewrite table_row_output, evaluate_shape, Hshape. f_equal.
      apply denote_agree. intros v Hv.
      destruct (list_elem_of_lookup_1 _ _ (proj2 (Hmem v) Hv)) as [j Hj].
      rewrite (assignment_lookup c i j v Hnd Hi Hj).
      rewrite (table_row_variable c i j v Hnd Hi Hj); [done|].
      by intros ->.
Qed.

Lemma truth_table_of_tree_witness :
  let tree := AND (IDENTIFIER "A") (NOT (IDENTIFIER "A")) in
  let table := generate_truth_table (build tree) in
  length table = 2 ^ size (list_to_set (identifiers tree) : gset string)
  ∧ ∀ i row,
      table !! i = Some row →
      dom row = {["Output"]} ∪ list_to_set (identifiers tree)
      ∧ row !! "Output" = Some (denote tree row).
Proof.
  apply (truth_table_of_tree (AND (IDENTIFIER "A") (NOT (IDENTIFIER "A")))).
  apply (bool_decide_unpack _). by vm_compute.
Defined.

(** * Further properties of the parser *)

Section Bounds.

Lemma length_slice_from (p : nat) (e : string) :
  String.length (Regex.slice_from p e) = String.length e - p.
Proof.
  revert p; induction e as [|c e IH]; intros [|p]; simpl; try done.
Qed.

Lemma leading_spaces_le (s : string) : Regex.leading_spaces s ≤ String.length s.
Proof.
  induction s as [|c s IH]; simpl; [lia|].
  destruct c as [[] [] [] [] [] [] [] []]; simpl; lia.
Qed.

Lemma length_ident_tail (s : string) :
  String.length (Regex.ident_tail s) ≤ String.length s.
Proof.
  induction s as [|c s IH]; simpl; [lia|].
  destruct (Regex.ident_char c); simpl; lia.
Qed.

Lemma prefix_length (k s : string) :
  String.prefix k s = true → String.length k ≤ String.length s.
Proof.
  revert s; induction k as [|c k IH]; intros [|d s]; simpl; try done; try lia.
  destruct (Ascii.ascii_dec c d); [|done]. intros H%IH. lia.
Qed.

(** A matched text is never longer than the text it was matched in. *)
Lemma match_length (s group : string) :
  Regex.match_paren s = Some group ∨ Regex.match_keyword s = Some group
  ∨ Regex.match_identifier s = Some group →
  0 < String.length group ∧ String.length group ≤ String.length s.
Proof.
  intros [H|[H|H]].
  - pose proof (match_paren_spec _ _ H) as Hlen. destruct s; [done|simpl; lia].
  - unfold Regex.match_keyword in H.
    destruct (String.prefix "AND" s) eqn:H1;
      [apply prefix_length in H1; injection H as <-; simpl in *; lia|].
    destruct (String.prefix "OR" s) eqn:H2;
      [apply prefix_length in H2; injection H as <-; simpl in *; lia|].
    destruct (String.prefix "NOT" s) eqn:H3;
      [apply prefix_length in H3; injection H as <-; simpl in *; lia|].
    done.
  - destruct s as [|c s]; simpl in H; [done|].
    destruct (Regex.ident_start c); [|done]. injection H as <-.
    pose proof (length_ident_tail s). simpl; lia.
Qed.

Lemma next_token_bounds (e : string) (p0 : nat) : keeps (in_bounds e p0) next_token.
Proof.
  intros self (He & Hp0 & Hp). unfold next_token. rewrite He.
  set (p := pos self + _).
  assert (Hpp : pos self ≤ p ∧ p ≤ String.length e).
  { unfold p. pose proof (leading_spaces_le (Regex.slice_from (pos self) e)) as H.
    rewrite length_slice_from in H. lia. }
  assert (Hfit : ∀ group,
    0 < String.length group ∧
    String.length group ≤ String.length (Regex.slice_from p e) →
    ∀ tok, in_bounds e p0 (mkLogicParser e (p + String.length group) tok)).
  { intros group [? Hg] tok. rewrite length_slice_from in Hg.
    split_and!; simpl; [done|lia|lia]. }
  destruct (decide _) as [Hle|Hgt]; [split_and!; simpl; [done|lia|lia]|].
  destruct (Regex.match_paren _) as [group|] eqn:Hparen;
    [apply Hfit, match_length; auto|].
  destruct (Regex.match_keyword _) as [group|] eqn:Hkw;
    [apply Hfit, match_length; auto|].
  destruct (Regex.match_identifier _) as [group|] eqn:Hid;
    [apply Hfit, match_length; auto|].
  split; [split_and!; simpl; [done|lia|lia]|]. by do 2 right.
Qed.


Lemma keeps_ret {A} (I : LogicParser → Prop) (a : A) : keeps I (ret a).
Proof. by intros self H. Qed.

Lemma keeps_bind {A B} (I : LogicParser → Prop) (c : M A) (k : A → M B) :
  keeps I c → (∀ a, keeps I (k a)) → keeps I (bind c k).
Proof.
  intros Hc Hk self HI. unfold bind. specialize (Hc self HI).
  destruct (c self) as [[a|msg|] self']; [|done..]. by apply Hk.
Qed.

Lemma term_loop_keeps (I : LogicParser → Prop) (sub : M Node) :
  keeps I next_token → keeps I sub → ∀ k left, keeps I (term_loop sub k left).
Proof.
  intros Hnext Hsub. induction k as [|k IH]; intros left self HI;
    rewrite term_loop_unfold; case_decide; try done.
  apply (keeps_bind I); [done| |done]. intros [].
  apply keeps_bind; [done|]. intros r. apply IH.
Qed.

Lemma expr_loop_keeps (I : LogicParser → Prop) (sub : M Node) :
  keeps I next_token → keeps I sub → ∀ k left, keeps I (expr_loop sub k left).
Proof.
  intros Hnext Hsub. induction k as [|k IH]; intros left self HI;
    rewrite expr_loop_unfold; case_decide; try done.
  apply (keeps_bind I); [done| |done]. intros [].
  apply keeps_bind; [done|]. intros r. apply IH.
Qed.

Lemma factor_keeps (I : LogicParser → Prop) :
  keeps I next_token → ∀ n, keeps I (factor n).
Proof.
  intros Hnext. induction n as [|n IH]; intros self HI; [done|]. simpl.
  assert (Hinner : keeps I (expr_with (term_with (factor n) n) n)).
  { apply keeps_bind.
    - apply keeps_bind; [done|]. intros left. by apply term_loop_keeps.
    - intros left. apply expr_loop_keeps; [done|].
      apply keeps_bind; [done|]. intros l. by apply term_loop_keeps. }
  destruct (current_token self) as [[| | | | |value]|].
  - apply (keeps_bind I); [done| |done]. intros [].
    apply keeps_bind; [done|]. intros node s Hs.
    destruct (current_token s) as [[]|]; try (split; [done|by right; left]).
    apply (keeps_bind I); [done| |done]. intros []. apply keeps_ret.
  - split; [done|by left].
  - split; [done|by left].
  - split; [done|by left].
  - apply (keeps_bind I); [done| |done]. intros [].
    apply keeps_bind; [done|]. intros r. apply keeps_ret.
  - apply (keeps_bind I); [done| |done]. intros []. apply keeps_ret.
  - split; [done|by left].
Qed.

Lemma parse_with_keeps (I : LogicParser → Prop) (n : nat) :
  keeps I next_token → keeps I (parse_with n).
Proof.
  intros Hnext. apply keeps_bind; [done|]. intros [].
  apply keeps_bind.
  - apply keeps_bind; [by apply factor_keeps|].
    intros left. apply term_loop_keeps; [done|by apply factor_keeps].
  - intros left. apply expr_loop_keeps; [done|].
    apply keeps_bind; [by apply factor_keeps|].
    intros l. apply term_loop_keeps; [done|by apply factor_keeps].
Qed.

End Bounds.


(** The scan position only moves forward and never passes the end of the
    expression, and the expression is never changed: this holds for one call
    of [next_token] and for a whole [parse], whether it returns or raises. *)
Theorem scan_position_in_bounds (self : LogicParser) :
  pos self ≤ String.length (expression self) →
  (let self' := snd (next_token self) in
   expression self' = expression self
   ∧ pos self ≤ pos self' ∧ pos self' ≤ String.length (expression self))
  ∧ ∀ n, let self' := snd (parse_with n self) in
      expression self' = expression self
      ∧ pos self ≤ pos self' ∧ pos self' ≤ String.length (expression self).
Proof.
  intros Hp.
  assert (Hin : in_bounds (expression self) (pos self) self) by (by split_and!).
  split.
  - pose proof (next_token_bounds _ _ self Hin) as H.
    destruct (next_token self) as [[?|?|] s']; simpl; [done| |done]. by destruct H.
  - intros n.
    pose proof (parse_with_keeps _ n (next_token_bounds _ _) self Hin) as H.
    destruct (parse_with n self) as [[?|?|] s']; simpl; [done| |done]. by destruct H.
Qed.

Lemma scan_position_in_bounds_witness :
  let self := snd (next_token (mkLogicParser " (x1 OR" 0 None)) in
  expression self = " (x1 OR" ∧ 0 ≤ pos self ∧ pos self ≤ 7.
Proof.
  apply (proj1 (scan_position_in_bounds (mkLogicParser " (x1 OR" 0 None)
                  ltac:(simpl; lia))).
Defined.

(** Every identifier of a returned tree has the shape
    [[a-zA-Z_][a-zA-Z0-9_]*] and is a piece of the source string. *)
Theorem parsed_identifiers_come_from_source (e : string) (tree : Node) :
  parse e = Return tree →
  ∀ v, v ∈ identifiers tree → is_identifier v = true ∧ occurs v e.
Proof.
  intros Hparse v Hv. pose proof (parse_identifiers e tree Hparse) as Hok.
  unfold node_ok in Hok. rewrite Forall_forall in Hok. by apply Hok.
Qed.

Lemma parsed_identifiers_come_from_source_witness :
  is_identifier "B" = true ∧ occurs "B" "a_1 AND NOT B".
Proof.
  apply (parsed_identifiers_come_from_source "a_1 AND NOT B"
           (AND (IDENTIFIER "a_1") (NOT (IDENTIFIER "B")))).
  - by vm_compute.
  - apply (bool_decide_unpack _). by vm_compute.
Defined.

(** ** What stands before the scan position does not matter *)

Section Shift.

Variable pre : string.

Lemma slice_from_append (p : nat) (e : string) :
  Regex.slice_from (String.length pre + p) (pre +:+ e) = Regex.slice_from p e.
Proof.
  induction pre as [|c pre' IH].
  - by change ("" +:+ e) with e.
  - change (String c pre' +:+ e) with (String c (pre' +:+ e)). simpl. apply IH.
Qed.

Lemma next_token_commutes : commutes pre next_token.
Proof.
  intros s. unfold next_token, shift. simpl.
  rewrite slice_from_append, length_append.
  set (ls := Regex.leading_spaces _).
  replace (String.length pre + pos s + ls) with (String.length pre + (pos s + ls))
    by lia.
  rewrite slice_from_append.
  destruct (decide (String.length (expression s) ≤ pos s + ls)) as [Hle|Hgt].
  { rewrite decide_True by lia. done. }
  rewrite decide_False by lia.
  destruct (Regex.match_paren _) as [group|]; [simpl; do 2 f_equal; lia|].
  destruct (Regex.match_keyword _) as [group|]; [simpl; do 2 f_equal; lia|].
  destruct (Regex.match_identifier _) as [group|]; [simpl; do 2 f_equal; lia|].
  done.
Qed.

Lemma commutes_ret {A} (a : A) : commutes pre (ret a).
Proof. by intros s. Qed.

Lemma commutes_bind {A B} (c : M A) (k : A → M B) :
  commutes pre c → (∀ a, commutes pre (k a)) → commutes pre (bind c k).
Proof.
  intros Hc Hk s. unfold bind. rewrite Hc.
  destruct (c s) as [[a|msg|] s1]; simpl; [apply Hk|done..].
Qed.

Lemma term_loop_commutes (sub : M Node) :
  commutes pre sub → ∀ k left, commutes pre (term_loop sub k left).
Proof.
  intros Hsub. induction k as [|k IH]; intros left s;
    rewrite !term_loop_unfold; simpl; case_decide; try done.
  apply commutes_bind; [apply next_token_commutes|]. intros [].
  apply commutes_bind; [done|]. intros r. apply IH.
Qed.

Lemma expr_loop_commutes (sub : M Node) :
  commutes pre sub → ∀ k left, commutes pre (expr_loop sub k left).
Proof.
  intros Hsub. induction k as [|k IH]; intros left s;
    rewrite !expr_loop_unfold; simpl; case_decide; try done.
  apply commutes_bind; [apply next_token_commutes|]. intros [].
  apply commutes_bind; [done|]. intros r. apply IH.
Qed.

Lemma expr_with_commutes (sub : M Node) (n : nat) :
  commutes pre sub → commutes pre (expr_with (term_with sub n) n).
Proof.
  intros Hsub. apply commutes_bind.
  - apply commutes_bind; [done|]. intros left. by apply term_loop_commutes.
  - intros left. apply expr_loop_commutes.
    apply commutes_bind; [done|]. intros l. by apply term_loop_commutes.
Qed.

Lemma factor_commutes (n : nat) : commutes pre (factor n).
Proof.
  induction n as [|n IH]; intros s; [done|]. simpl.
  destruct (current_token s) as [[| | | | |value]|]; try done.
  - apply commutes_bind; [apply next_token_commutes|]. intros [].
    apply commutes_bind; [by apply expr_with_commutes|].
    intros node s1. simpl.
    destruct (current_token s1) as [[]|]; try done.
    apply commutes_bind; [apply next_token_commutes|]. intros [].
    apply commutes_ret.
  - apply commutes_bind; [apply next_token_commutes|]. intros [].
    apply commutes_bind; [done|]. intros r. apply commutes_ret.
  - apply commutes_bind; [apply next_token_commutes|]. intros [].
    apply commutes_ret.
Qed.

Lemma expr_commutes (n : nat) : commutes pre (expr n).
Proof. apply expr_with_commutes, factor_commutes. Qed.

Lemma parse_with_commutes (n : nat) : commutes pre (parse_with n).
Proof.
  apply commutes_bind; [apply next_token_commutes|]. intros [].
  apply expr_commutes.
Qed.

End Shift.

Section Blanks.

Lemma length_blanks n : String.length (blanks n) = n.
Proof. induction n; simpl; congruence. Qed.

Lemma leading_spaces_blanks n s :
  Regex.leading_spaces (blanks n +:+ s) = n + Regex.leading_spaces s.
Proof.
  induction n as [|n IH].
  - by change (blanks 0 +:+ s) with s.
  - change (blanks (S n) +:+ s) with (String " " (blanks n +:+ s)).
    simpl. by rewrite IH.
Qed.

(** Starting the scan on a blank or after it is the same. *)
Lemma next_token_skip_blanks (x : string) (p j : nat) (t : option Token) :
  Regex.slice_from p x = blanks j +:+ Regex.slice_from (p + j) x →
  next_token (mkLogicParser x p t) = next_token (mkLogicParser x (p + j) t).
Proof.
  intros Hslice. unfold next_token; simpl.
  rewrite Hslice, leading_spaces_blanks.
  by replace (p + (j + Regex.leading_spaces (Regex.slice_from (p + j) x)))
    with (p + j + Regex.leading_spaces (Regex.slice_from (p + j) x)) by lia.
Qed.

End Blanks.

(** Blanks in front of an expression are insignificant: the expression
    parses to the same tree, or fails with the same exception, with and
    without them. An expression made of blanks only is rejected with
    ["Invalid factor"]. *)
Theorem leading_blanks_ignored (n : nat) (e : string) :
  parse (blanks n +:+ e) = parse e
  ∧ parse (blanks n) = Raise "Invalid factor".
Proof.
  assert (H : ∀ x, parse (blanks n +:+ x) = parse x).
  { intros x. unfold parse, run_parse, new_parser.
    set (f := parse_fuel (blanks n +:+ x)).
    assert (Hstart : parse_with f (mkLogicParser (blanks n +:+ x) 0 None)
                     = parse_with f (shift (blanks n) (new_parser x))).
    { unfold parse_with, bind, shift, new_parser; simpl.
      rewrite (next_token_skip_blanks _ 0 n); simpl.
      - by rewrite length_blanks, Nat.add_0_r.
      - pose proof (slice_from_append (blanks n) 0 x) as Hs.
        rewrite length_blanks, Nat.add_0_r in Hs. by rewrite Hs. }
    rewrite Hstart, parse_with_commutes; simpl.
    rewrite parse_fuel_irrelevant; [done|].
    unfold f, parse_fuel. rewrite length_append. lia. }
  split; [apply H|].
  specialize (H ""). revert H.
  assert (blanks n +:+ "" = blanks n) as ->.
  { induction n as [|n IH]; [done|].
    change (blanks (S n) +:+ "") with (String " " (blanks n +:+ "")).
    by rewrite IH. }
  by intros ->.
Qed.

(** ** What stands after a complete expression *)

Section Strings.

Lemma slice_from_append_l (x y : string) (p : nat) :
  p ≤ String.length x →
  Regex.slice_from p (x +:+ y) = Regex.slice_from p x +:+ y.
Proof.
  revert p; induction x as [|c x IH]; intros [|p] Hp; simpl in Hp; try done; try lia.
  change (String c x +:+ y) with (String c (x +:+ y)). simpl. apply IH. lia.
Qed.

Lemma leading_spaces_cons (c : ascii) (s : string) :
  Regex.leading_spaces (String c s)
  = if decide (c = " "%char) then S (Regex.leading_spaces s) else 0.
Proof. destruct c as [[] [] [] [] [] [] [] []]; by case_decide. Qed.

Lemma leading_spaces_append (a y : string) :
  Regex.leading_spaces a < String.length a →
  Regex.leading_spaces (a +:+ y) = Regex.leading_spaces a.
Proof.
  induction a as [|c a IH]; [simpl; lia|].
  change (String c a +:+ y) with (String c (a +:+ y)).
  rewrite !leading_spaces_cons. case_decide; [|done].
  simpl. intros Hlt. rewrite IH; [done|lia].
Qed.

Lemma leading_spaces_all (a : string) :
  Regex.leading_spaces a = String.length a → a = blanks (String.length a).
Proof.
  induction a as [|c a IH]; [done|].
  rewrite leading_spaces_cons. case_decide as Hc; [|done].
  simpl. intros [= Hall]. by rewrite <-IH, Hc.
Qed.

Lemma match_paren_append (rest y : string) :
  rest ≠ "" → Regex.match_paren (rest +:+ y) = Regex.match_paren rest.
Proof.
  destruct rest as [|c r]; [done|]. intros _.
  change (String c r +:+ y) with (String c (r +:+ y)).
  by destruct c as [[] [] [] [] [] [] [] []].
Qed.

Section Boundary.

(** [y] does not start with an identifier character. *)
Variable y : string.
Hypothesis Hy :
  match y with String c _ => Regex.ident_char c = false | EmptyString => True end.

Lemma prefix_append_stable (k rest : string) :
  all_ident_chars k = true →
  String.prefix k (rest +:+ y) = String.prefix k rest.
Proof.
  revert rest; induction k as [|c k IH]; intros rest Hk.
  - destruct rest; [by destruct y|done].
  - simpl in Hk. apply andb_true_iff in Hk as [Hc Hk].
    destruct rest as [|d r].
    + change ("" +:+ y) with y. destruct y as [|d y']; [done|]. simpl.
      destruct (Ascii.ascii_dec c d) as [->|]; [congruence|done].
    + change (String d r +:+ y) with (String d (r +:+ y)). simpl.
      destruct (Ascii.ascii_dec c d); [by apply IH|done].
Qed.

Lemma match_keyword_append (rest : string) :
  Regex.match_keyword (rest +:+ y) = Regex.match_keyword rest.
Proof.
  unfold Regex.match_keyword. by rewrite !prefix_append_stable.
Qed.

Lemma ident_tail_append (r : string) :
  Regex.ident_tail (r +:+ y) = Regex.ident_tail r.
Proof.
  induction r as [|c r IH].
  - change ("" +:+ y) with y. destruct y as [|d y']; [done|]. simpl. by rewrite Hy.
  - change (String c r +:+ y) with (String c (r +:+ y)). simpl. by rewrite IH.
Qed.

Lemma match_identifier_append (rest : string) :
  rest ≠ "" → Regex.match_identifier (rest +:+ y) = Regex.match_identifier rest.
Proof.
  destruct rest as [|c r]; [done|]. intros _.
  change (String c r +:+ y) with (String c (r +:+ y)). simpl.
  by rewrite ident_tail_append.
Qed.

End Boundary.

End Strings.

Section Suffix.

Variables (e post : string) (tok_end : option Token) (used : nat).

(** [post] starts with blanks followed by a token that is no identifier
    character, or is blank. *)
Hypothesis Hfirst :
  ∀ t, next_token (mkLogicParser post 0 t)
       = (Return (), mkLogicParser post used tok_end).
Hypothesis Hchar :
  match post with String c _ => Regex.ident_char c = false | EmptyString => True end.
Hypothesis Hnot_and : tok_end ≠ Some TOK_AND.
Hypothesis Hnot_or : tok_end ≠ Some TOK_OR.

Lemma next_token_follows (s s' : LogicParser) (s1 : LogicParser) :
  expression s = e → expression s' = e +:+ post →
  pos s' = pos s → pos s ≤ String.length e →
  next_token s = (Return (), s1) →
  ∃ s1', next_token s' = (Return (), s1') ∧ extends e post tok_end used s1 s1'.
Proof.
  destruct s as [x p t], s' as [x' p' t']; simpl. intros -> -> -> Hp.
  set (a := Regex.slice_from p e).
  assert (Hlen_a : String.length a = String.length e - p)
    by apply length_slice_from.
  pose proof (leading_spaces_le a) as Hls.
  destruct (decide (String.length e ≤ p + Regex.leading_spaces a)) as [Hend|Hmid].
  - (* the first parser object is at the end of [e] *)
    unfold next_token at 1; simpl. fold a. rewrite decide_True by done.
    intros [= <-].
    assert (Ha : a = blanks (String.length e - p)).
    { rewrite <-Hlen_a. apply leading_spaces_all. lia. }
    exists (mkLogicParser (e +:+ post) (String.length e + used) tok_end).
    split.
    + rewrite (next_token_skip_blanks _ p (String.length e - p)).
      * replace (p + (String.length e - p)) with (String.length e + 0) by lia.
        change (mkLogicParser (e +:+ post) (String.length e + 0) t')
          with (shift e (mkLogicParser post 0 t')).
        by rewrite next_token_commutes, Hfirst.
      * rewrite slice_from_append_l by done. fold a. rewrite <-Ha. f_equal.
        replace (p + (String.length e - p)) with (String.length e + 0) by lia.
        by rewrite slice_from_append.
    + split_and!; simpl; [done|done|lia|]. right. split_and!; [done|done|lia].
  - (* a token of [e] is read *)
    assert (Hsp : Regex.leading_spaces (a +:+ post) = Regex.leading_spaces a)
      by (apply leading_spaces_append; lia).
    set (q := p + Regex.leading_spaces a).
    assert (Hrest : Regex.slice_from q (e +:+ post) = Regex.slice_from q e +:+ post)
      by (apply slice_from_append_l; lia).
    assert (Hne : Regex.slice_from q e ≠ "").
    { intros Heq. pose proof (length_slice_from q e) as Hl.
      rewrite Heq in Hl. simpl in Hl. lia. }
    unfold next_token; simpl. fold a.
    rewrite slice_from_append_l by done. fold a. rewrite Hsp. fold q.
    rewrite decide_False by done.
    rewrite decide_False by (rewrite length_append; lia).
    rewrite Hrest, match_paren_append, (match_keyword_append post Hchar),
      (match_identifier_append post Hchar) by done.
    assert (Hfit : ∀ group tok,
      Regex.match_paren (Regex.slice_from q e) = Some group
      ∨ Regex.match_keyword (Regex.slice_from q e) = Some group
      ∨ Regex.match_identifier (Regex.slice_from q e) = Some group →
      extends e post tok_end used
        (mkLogicParser e (q + String.length group) (Some tok))
        (mkLogicParser (e +:+ post) (q + String.length group) (Some tok))).
    { intros group tok [_ Hg]%match_length. rewrite length_slice_from in Hg.
      split_and!; simpl; [done|done|lia|]. left. by split_and!. }
    destruct (Regex.match_paren _) as [group|] eqn:Hparen.
    { intros [= <-]. eexists. split; [done|]. apply Hfit. auto. }
    destruct (Regex.match_keyword _) as [group|] eqn:Hkw.
    { intros [= <-]. eexists. split; [done|]. apply Hfit. auto. }
    destruct (Regex.match_identifier _) as [group|] eqn:Hid; [|done].
    intros [= <-]. eexists. split; [done|]. apply Hfit. auto.
Qed.

Lemma extends_token (s s' : LogicParser) (tok : Token) :
  extends e post tok_end used s s' → current_token s = Some tok →
  expression s = e ∧ expression s' = e +:+ post ∧ pos s' = pos s
  ∧ pos s ≤ String.length e ∧ current_token s' = Some tok.
Proof.
  intros (He & He' & Hp & [(Hpos & Htok & _)|(Hnone & _)]) Hs; [|congruence].
  split_and!; try done. congruence.
Qed.

Lemma follows_ret {A} (a : A) : follows (extends e post tok_end used) (ret a).
Proof. intros s s' b s1 HR [= <- <-]. by exists s'. Qed.

Lemma follows_bind {A B} (c : M A) (k : A → M B) :
  follows (extends e post tok_end used) c →
  (∀ a, follows (extends e post tok_end used) (k a)) →
  follows (extends e post tok_end used) (bind c k).
Proof.
  intros Hc Hk s s' b s2 HR. unfold bind.
  destruct (c s) as [[a|msg|] s1] eqn:Hcs; [|done..].
  destruct (Hc _ _ _ _ HR Hcs) as (s1' & -> & HR1). by apply Hk.
Qed.

(** A call of [next_token] followed by [k], from a parser object with a
    pending token. *)
Lemma next_then_follows {A} (k : M A) (s s' : LogicParser) (tok : Token) :
  follows (extends e post tok_end used) k →
  extends e post tok_end used s s' → current_token s = Some tok →
  ∀ a s2, (next_token >> k) s = (Return a, s2) →
    ∃ s2', (next_token >> k) s' = (Return a, s2')
           ∧ extends e post tok_end used s2 s2'.
Proof.
  intros Hk HR Htok a s2. unfold bind.
  destruct (extends_token _ _ _ HR Htok) as (He & He' & Hpos & Hp & _).
  destruct (next_token s) as [[[]|msg|] s1] eqn:Hn; [|done..].
  destruct (next_token_follows _ _ _ He He' Hpos Hp Hn) as (s1' & -> & HR1).
  by apply Hk.
Qed.

Lemma extends_not_token (s s' : LogicParser) (tok : Token) :
  extends e post tok_end used s s' → tok_end ≠ Some tok →
  current_token s ≠ Some tok → current_token s' ≠ Some tok.
Proof.
  intros (_ & _ & _ & [(_ & -> & _)|(_ & -> & _)]) ??; done.
Qed.

Lemma term_loop_follows (sub : M Node) :
  follows (extends e post tok_end used) sub →
  ∀ k left, follows (extends e post tok_end used) (term_loop sub k left).
Proof.
  intros Hsub. induction k as [|k IH]; intros left s s' a s1 HR;
    rewrite !term_loop_unfold; destruct (decide (current_token s = _)) as [Htok|Htok].
  - done.
  - intros [= <- <-]. exists s'.
    by rewrite decide_False by eauto using extends_not_token.
  - rewrite decide_True by (by destruct (extends_token _ _ _ HR Htok) as (_&_&_&_&?)).
    eapply next_then_follows; [|exact HR|exact Htok].
    apply follows_bind; [done|]. intros r. apply IH.
  - intros [= <- <-]. exists s'.
    by rewrite decide_False by eauto using extends_not_token.
Qed.

Lemma expr_loop_follows (sub : M Node) :
  follows (extends e post tok_end used) sub →
  ∀ k left, follows (extends e post tok_end used) (expr_loop sub k left).
Proof.
  intros Hsub. induction k as [|k IH]; intros left s s' a s1 HR;
    rewrite !expr_loop_unfold; destruct (decide (current_token s = _)) as [Htok|Htok].
  - done.
  - intros [= <- <-]. exists s'.
    by rewrite decide_False by eauto using extends_not_token.
  - rewrite decide_True by (by destruct (extends_token _ _ _ HR Htok) as (_&_&_&_&?)).
    eapply next_then_follows; [|exact HR|exact Htok].
    apply follows_bind; [done|]. intros r. apply IH.
  - intros [= <- <-]. exists s'.
    by rewrite decide_False by eauto using extends_not_token.
Qed.

Lemma expr_with_follows (sub : M Node) (n : nat) :
  follows (extends e post tok_end used) sub →
  follows (extends e post tok_end used) (expr_with (term_with sub n) n).
Proof.
  intros Hsub. apply follows_bind.
  - apply follows_bind; [done|]. intros left. by apply term_loop_follows.
  - intros left. apply expr_loop_follows.
    apply follows_bind; [done|]. intros l. by apply term_loop_follows.
Qed.

Lemma factor_follows (n : nat) : follows (extends e post tok_end used) (factor n).
Proof.
  induction n as [|n IH]; intros s s' a s1 HR; [done|]. simpl.
  destruct (current_token s) as [tok|] eqn:Htok; [|done].
  destruct (extends_token _ _ _ HR Htok) as (_ & _ & _ & _ & ->).
  destruct tok as [| | | | |value]; try done.
  - eapply next_then_follows; [|exact HR|exact Htok].
    apply follows_bind; [by apply expr_with_follows|].
    intros node u u' b u1 HRu.
    destruct (current_token u) as [tok|] eqn:Hu; [|done].
    destruct (extends_token _ _ _ HRu Hu) as (_ & _ & _ & _ & ->).
    destruct tok; try done.
    eapply next_then_follows; [|exact HRu|exact Hu]. apply follows_ret.
  - eapply next_then_follows; [|exact HR|exact Htok].
    apply follows_bind; [done|]. intros r. apply follows_ret.
  - eapply next_then_follows; [|exact HR|exact Htok]. apply follows_ret.
Qed.

(** A whole [parse]: when it returns on [e], it returns the same tree on
    [e] followed by [post]. *)
Lemma run_parse_follows (tree : Node) (s1 : LogicParser) :
  run_parse e = (Return tree, s1) →
  ∃ s1', run_parse (e +:+ post) = (Return tree, s1')
         ∧ extends e post tok_end used s1 s1'.
Proof.
  intros Hrun.
  assert (Hfuel : parse_fuel e ≤ parse_fuel (e +:+ post))
    by (unfold parse_fuel; rewrite length_append; lia).
  rewrite <-(parse_fuel_irrelevant e _ Hfuel) in Hrun.
  unfold run_parse, parse_with, bind in *.
  destruct (next_token (new_parser e)) as [[[]|msg|] u] eqn:Hn; [|done..].
  destruct (next_token_follows (new_parser e) (new_parser (e +:+ post)) u)
    as (u' & -> & HRu); simpl; try done; [lia|].
  by apply (expr_with_follows _ _ (factor_follows _)) with (s := u).
Qed.

End Suffix.

Section Parentheses.

Lemma next_token_token (x : string) (p : nat) (t t' : option Token) :
  match next_token (mkLogicParser x p t) with
  | (Return u, s) => next_token (mkLogicParser x p t') = (Return u, s)
  | (Raise msg, s) => fst (next_token (mkLogicParser x p t')) = Raise msg
  | (Diverge, _) => False
  end.
Proof.
  unfold next_token; simpl.
  destruct (decide _); [done|].
  destruct (Regex.match_paren _); [done|].
  destruct (Regex.match_keyword _); [done|].
  by destruct (Regex.match_identifier _).
Qed.

Lemma next_token_open (e2 : string) :
  next_token (new_parser ("(" +:+ e2))
  = (Return (), mkLogicParser ("(" +:+ e2) 1 (Some TOK_LPAREN)).
Proof.
  unfold next_token, new_parser. change ("(" +:+ e2) with (String "(" e2). by simpl.
Qed.

Lemma next_token_at_end (x : string) (t : option Token) :
  next_token (mkLogicParser x (String.length x) t)
  = (Return (), mkLogicParser x (String.length x) None).
Proof.
  unfold next_token; simpl.
  assert (Regex.slice_from (String.length x) x = "") as ->.
  { induction x; [done|]. by simpl. }
  simpl. rewrite Nat.add_0_r. by rewrite decide_True.
Qed.

Lemma run_parse_open (e2 : string) :
  run_parse ("(" +:+ e2)
  = expr (S (parse_fuel e2))
      (shift "(" (mkLogicParser e2 0 (Some TOK_LPAREN))).
Proof.
  unfold run_parse, parse_with, bind. by rewrite next_token_open.
Qed.

(** What [factor] does from an opening parenthesis in front of [e2], in
    terms of the work of [parse] on [e2]. *)
Lemma factor_open (e2 : string) (n : nat) :
  let sL := mkLogicParser e2 0 (Some TOK_LPAREN) in
  match parse_with n (new_parser e2) with
  | (Return tree, s1) =>
      factor (S n) sL
      = match current_token s1 with
        | Some TOK_RPAREN => (next_token >> ret tree) s1
        | _ => (Raise "Missing closing parenthesis", s1)
        end
  | (Raise msg, _) => fst (factor (S n) sL) = Raise msg
  | (Diverge, _) => fst (factor (S n) sL) = Diverge
  end.
Proof.
  intros sL. unfold sL. cbn [factor current_token].
  unfold parse_with, expr, term, new_parser.
  pose proof (next_token_token e2 0 None (Some TOK_LPAREN)) as Htok.
  set (inner := expr_with (term_with (factor n) n) n).
  unfold bind.
  destruct (next_token (mkLogicParser e2 0 None)) as [[[]|msg|] sA]; [| |done].
  - rewrite Htok.
    destruct (inner sA) as [[tree|msg|] s1]; simpl; [|done..].
    by destruct (current_token s1) as [[]|].
  - destruct (next_token (mkLogicParser e2 0 (Some TOK_LPAREN))) as [o sB].
    simpl in *. by subst o.
Qed.

Lemma expr_of_factor (n : nat) (s : LogicParser) :
  expr n s
  = match factor n s with
    | (Return node, s1) =>
        (let* l := term_loop (factor n) n node in expr_loop (term n) n l) s1
    | (Raise msg, s1) => (Raise msg, s1)
    | (Diverge, s1) => (Diverge, s1)
    end.
Proof.
  unfold expr, expr_with, term, term_with, bind.
  by destruct (factor n s) as [[node|msg|] s1].
Qed.

Lemma loops_at_end (f g : M Node) (k k' : nat) (node : Node) (s : LogicParser) :
  current_token s = None →
  (let* l := term_loop f k node in expr_loop g k' l) s = (Return node, s).
Proof.
  intros Hnone. unfold bind.
  rewrite term_loop_unfold, decide_False by (by rewrite Hnone).
  by rewrite expr_loop_unfold, decide_False by (by rewrite Hnone).
Qed.

Lemma close_at_end (x : string) (t : option Token) (tree : Node) :
  (next_token >> ret tree) (mkLogicParser x (String.length x) t)
  = (Return tree, mkLogicParser x (String.length x) None).
Proof. unfold bind. by rewrite next_token_at_end. Qed.

(** The work of [parse] on ["(" +:+ e2], in terms of its work on [e2]. *)
Lemma parse_open (e2 : string) :
  match run_parse e2 with
  | (Return tree, s1) =>
      match current_token s1 with
      | Some TOK_RPAREN =>
          pos s1 = String.length e2 →
          run_parse ("(" +:+ e2)
          = (Return tree,
             mkLogicParser ("(" +:+ e2) (S (String.length e2)) None)
      | _ => parse ("(" +:+ e2) = Raise "Missing closing parenthesis"
      end
  | (Raise msg, _) => parse ("(" +:+ e2) = Raise msg
  | (Diverge, _) => False
  end.
Proof.
  pose proof (parse_terminates e2) as Hterm.
  pose proof (parse_with_keeps _ (parse_fuel e2) (next_token_bounds e2 0)
                (new_parser e2) ltac:(split_and!; simpl; [done|lia|lia])) as Hb.
  pose proof (factor_open e2 (parse_fuel e2)) as Hf. cbv zeta in Hf.
  unfold parse in *. rewrite run_parse_open, expr_commutes, expr_of_factor.
  unfold run_parse in *.
  destruct (parse_with (parse_fuel e2) (new_parser e2)) as [[tree|msg|] s1];
    [| |done].
  - rewrite Hf. destruct Hb as (He & _ & _).
    destruct (current_token s1) as [[]|] eqn:Htok; try done.
    intros Hpos.
    assert (s1 = mkLogicParser e2 (String.length e2) (Some TOK_RPAREN)) as ->
      by (destruct s1; simpl in *; congruence).
    rewrite close_at_end. cbv beta iota.
    by rewrite loops_at_end.
  - cbn [fst].
    destruct (factor _ _) as [o s0]. cbn [fst] in Hf. by subst o.
Qed.

End Parentheses.

(** A complete expression between parentheses parses to the same tree, and
    everything is read. *)
Theorem parenthesised_expression (e : string) (tree : Node) (s1 : LogicParser) :
  run_parse e = (Return tree, s1) → current_token s1 = None →
  run_parse ("(" +:+ e +:+ ")")
  = (Return tree,
     mkLogicParser ("(" +:+ e +:+ ")") (String.length e + 2) None).
Proof.
  intros Hrun Hnone.
  destruct (run_parse_follows e ")" (Some TOK_RPAREN) 1) with (tree := tree) (s1 := s1)
    as (s1' & Hrun' & He & He' & Hp & [(_ & _ & Hsome)|(_ & Htok & Hpos)]);
    try done.
  { by rewrite Hnone in Hsome; destruct Hsome. }
  pose proof (parse_open (e +:+ ")")) as H. rewrite Hrun', Htok in H.
  rewrite H by (rewrite Hpos, length_append; done).
  rewrite length_append. simpl. do 2 f_equal. lia.
Qed.

Lemma parenthesised_expression_witness :
  run_parse ("(" +:+ "a OR NOT b" +:+ ")")
  = (Return (OR (IDENTIFIER "a") (NOT (IDENTIFIER "b"))),
     mkLogicParser ("(" +:+ "a OR NOT b" +:+ ")") (String.length "a OR NOT b" + 2) None).
Proof.
  apply (parenthesised_expression "a OR NOT b" _ (mkLogicParser "a OR NOT b" 10 None));
    by vm_compute.
Defined.

(** An opening parenthesis in front of an expression that parses without
    leaving a closing parenthesis pending is never closed: [parse] raises
    ["Missing closing parenthesis"]. An expression that fails to parse fails
    with the same message behind an opening parenthesis. *)
Theorem unclosed_parenthesis (e : string) :
  (∀ tree s1,
     run_parse e = (Return tree, s1) → current_token s1 ≠ Some TOK_RPAREN →
     parse ("(" +:+ e) = Raise "Missing closing parenthesis")
  ∧ (∀ msg, parse e = Raise msg → parse ("(" +:+ e) = Raise msg).
Proof.
  pose proof (parse_open e) as H. split.
  - intros tree s1 Hrun Htok. rewrite Hrun in H.
    by destruct (current_token s1) as [[]|].
  - intros msg Hmsg. unfold parse in Hmsg.
    destruct (run_parse e) as [[tree|m|] s1]; simpl in Hmsg; by simplify_eq.
Qed.

Lemma unclosed_parenthesis_witness :
  parse ("(" +:+ "A AND B") = Raise "Missing closing parenthesis"
  ∧ parse ("(" +:+ "A AND &") = Raise "Invalid character".
Proof.
  split.
  - apply (proj1 (unclosed_parenthesis "A AND B")
             (AND (IDENTIFIER "A") (IDENTIFIER "B"))
             (mkLogicParser "A AND B" 7 None)); by vm_compute.
  - apply (proj2 (unclosed_parenthesis "A AND &")). by vm_compute.
Defined.

(** [parse] stops at a closing parenthesis that closes nothing: a complete
    expression followed by [")"] and by any text at all parses to the tree of
    the expression, with the parenthesis pending and the text unread. *)
Theorem parse_stops_at_closing_parenthesis
  (e w : string) (tree : Node) (s1 : LogicParser) :
  run_parse e = (Return tree, s1) → current_token s1 = None →
  run_parse (e +:+ ")" +:+ w)
  = (Return tree,
     mkLogicParser (e +:+ ")" +:+ w) (String.length e + 1) (Some TOK_RPAREN)).
Proof.
  intros Hrun Hnone.
  destruct (run_parse_follows e (")" +:+ w) (Some TOK_RPAREN) 1)
    with (tree := tree) (s1 := s1)
    as (s1' & Hrun' & He & He' & Hp & [(_ & _ & Hsome)|(_ & Htok & Hpos)]);
    try done.
  { by rewrite Hnone in Hsome; destruct Hsome. }
  rewrite Hrun'. f_equal. destruct s1'; simpl in *; congruence.
Qed.

Lemma parse_stops_at_closing_parenthesis_witness :
  run_parse ("NOT x" +:+ ")" +:+ " & ( AND") 
  = (Return (NOT (IDENTIFIER "x")),
     mkLogicParser ("NOT x" +:+ ")" +:+ " & ( AND") (String.length "NOT x" + 1)
       (Some TOK_RPAREN)).
Proof.
  apply (parse_stops_at_closing_parenthesis "NOT x" " & ( AND" _
           (mkLogicParser "NOT x" 5 None)); by vm_compute.
Defined.

Lemma leading_spaces_only_blanks (m : nat) : Regex.leading_spaces (blanks m) = m.
Proof. induction m; simpl; congruence. Qed.

(** Blanks after an expression that parses are insignificant. *)
Theorem trailing_blanks_ignored (e : string) (m : nat) (tree : Node) :
  parse e = Return tree → parse (e +:+ blanks m) = Return tree.
Proof.
  unfold parse. destruct (run_parse e) as [r s1] eqn:Hrun. simpl. intros ->.
  destruct (run_parse_follows e (blanks m) None m) with (tree := tree) (s1 := s1)
    as (s1' & -> & _); try done.
  - intros t. unfold next_token; simpl.
    destruct m as [|m]; [done|].
    change (Regex.slice_from 0 (blanks (S m))) with (blanks (S m)).
    rewrite leading_spaces_only_blanks, length_blanks.
    by rewrite decide_True.
  - by destruct m.
Qed.

Lemma trailing_blanks_ignored_witness :
  parse ("p AND q" +:+ blanks 3) = Return (AND (IDENTIFIER "p") (IDENTIFIER "q")).
Proof. apply (trailing_blanks_ignored "p AND q" 3). by vm_compute. Defined.

(** * Printing a generated truth table *)

Section Printing.

Implicit Types (row : gmap string bool) (vars : list string) (c : Circuit).

Lemma row_values_total row vars :
  (∀ var, var ∈ vars → is_Some (row !! var)) →
  row_values row vars = inr ((λ var, bool_digit (row !!! var)) <$> vars).
Proof.
  induction vars as [|var vars IH]; intros H; simpl; [done|].
  destruct (H var ltac:(by left)) as [b Hb]. rewrite Hb.
  rewrite IH by (intros v Hv; apply H; by right).
  by rewrite (lookup_total_correct _ _ _ Hb).
Qed.

Lemma table_row_has_input c i var :
  var ∈ inputs c → is_Some (table_row c i !! var).
Proof.
  intros Hvar. apply elem_of_dom. rewrite table_row_dom.
  apply elem_of_union. right. by apply elem_of_list_to_set.
Qed.

(** The lines printed for the rows [table_row c i] with [i] in [idx]. *)
Lemma print_rows_generated c (idx : list nat) :
  print_rows (table_row c <$> idx) (inputs c)
  = ((λ i,
        String.concat " | "
          ((λ var, bool_digit (table_row c i !!! var)) <$> inputs c)
        +:+ " |   "
        +:+ bool_digit (Gate.evaluate (output_gate c) (assignment c i)))
       <$> idx,
     None).
Proof.
  induction idx as [|i idx IH]; [done|]. rewrite !fmap_cons. cbn [print_rows].
  rewrite row_values_total by (intros v Hv; by apply table_row_has_input).
  by rewrite table_row_output, IH.
Qed.

End Printing.

(** Printing the truth table generated for a circuit never raises
    [KeyError]: every row has an entry for each input and for ["Output"].
    It prints five heading lines, one line per row, that is [2 ^ k] lines for
    [k] inputs, and a closing line. *)
Theorem print_generated_table (c : Circuit) :
  let '(lines, err) := visualize_truth_table (generate_truth_table c) (inputs c) in
  err = None ∧ length lines = 2 ^ length (inputs c) + 6.
Proof.
  unfold visualize_truth_table, generate_truth_table.
  rewrite print_rows_generated. split; [done|].
  rewrite !length_app, length_fmap, length_seq. simpl. lia.
Qed.

(** When the inputs are pairwise distinct and none is named ["Output"], the
    line printed for row [i] shows the [k] binary digits of [i], the most
    significant first, separated by [" | "], and then the value of the
    output gate under the assignment of that row. *)
Theorem printed_row (c : Circuit) (i : nat) :
  let k := length (inputs c) in
  NoDup (inputs c) → "Output" ∉ inputs c → i < 2 ^ k →
  fst (visualize_truth_table (generate_truth_table c) (inputs c)) !! (5 + i)
  = Some (String.concat " | "
            ((λ j, bool_digit (Nat.testbit i (k - 1 - j))) <$> seq 0 k)
          +:+ " |   "
          +:+ bool_digit (Gate.evaluate (output_gate c) (assignment c i))).
Proof.
  intros k Hnd Hout Hi.
  unfold visualize_truth_table, generate_truth_table.
  rewrite print_rows_generated. cbn [fst].
  change (5 + i) with (length [newline +:+ times "=" 50; "TRUTH TABLE"; times "=" 50;
    String.concat " | " (inputs c) +:+ " | Output";
    times "-" (String.length (String.concat " | " (inputs c) +:+ " | Output"))] + i).
  rewrite lookup_app_shift, lookup_app_l by (rewrite length_fmap, length_seq; done).
  rewrite list_lookup_fmap, lookup_seq_lt by done. simpl. do 3 f_equal.
  apply list_eq. intros j. rewrite !list_lookup_fmap.
  destruct (inputs c !! j) as [var|] eqn:Hj; simpl.
  - pose proof (lookup_lt_Some _ _ _ Hj) as Hjk.
    rewrite lookup_seq_lt by done. simpl. do 2 f_equal.
    apply lookup_total_correct, table_row_variable; try done.
    intros ->. by apply Hout, list_elem_of_lookup_2 with j.
  - apply lookup_ge_None in Hj. by rewrite lookup_seq_ge.
Qed.

Lemma printed_row_witness :
  let c := build (AND (IDENTIFIER "A") (IDENTIFIER "B")) in
  fst (visualize_truth_table (generate_truth_table c) (inputs c)) !! (5 + 2)
  = Some (String.concat " | "
            ((λ j, bool_digit (Nat.testbit 2 (2 - 1 - j))) <$> seq 0 2)
          +:+ " |   "
          +:+ bool_digit (Gate.evaluate (output_gate c) (assignment c 2))).
Proof.
  apply (printed_row (build (AND (IDENTIFIER "A") (IDENTIFIER "B"))) 2).
  - apply (bool_decide_unpack _). by vm_compute.
  - apply (bool_decide_unpack _). by vm_compute.
  - apply (bool_decide_unpack _). by vm_compute.
Defined.

(** * The operator check of [main.py] and the parser *)

Section OperatorCheck.

Lemma contains_slice (sub s : string) (p : nat) :
  String.prefix sub (Regex.slice_from p s) = true → contains sub s = true.
Proof.
  revert p; induction s as [|c s IH]; intros [|p] H; simpl in *.
  - by rewrite H.
  - by rewrite H.
  - by rewrite H.
  - rewrite (IH p H). apply orb_true_r.
Qed.

Lemma match_paren_open (rest : string) :
  Regex.match_paren rest = Some "(" → String.prefix "(" rest = true.
Proof.
  destruct rest as [|c r]; [done|].
  destruct c as [[] [] [] [] [] [] [] []]; try done. by destruct r.
Qed.

Lemma match_keyword_prefix (rest group : string) :
  Regex.match_keyword rest = Some group →
  String.prefix group rest = true
  ∧ (group = "AND" ∨ group = "OR" ∨ group = "NOT").
Proof.
  unfold Regex.match_keyword.
  destruct (String.prefix "AND" rest) eqn:H1; [intros [= <-]; auto|].
  destruct (String.prefix "OR" rest) eqn:H2; [intros [= <-]; auto|].
  destruct (String.prefix "NOT" rest) eqn:H3; [intros [= <-]; auto|].
  done.
Qed.

Variable e : string.
Hypothesis Hno : no_operators_found e = true.

Lemma no_keyword_in (group : string) (p : nat) :
  group = "AND" ∨ group = "OR" ∨ group = "NOT" →
  String.prefix group (Regex.slice_from p e) = true → False.
Proof.
  intros Hg Hp%contains_slice. pose proof Hno as Hno'.
  unfold no_operators_found in Hno'.
  apply andb_true_iff in Hno' as [Hk _]. apply negb_true_iff in Hk.
  destruct Hg as [-> | [-> | ->]]; rewrite Hp in Hk; simpl in Hk;
    rewrite ?orb_true_r in Hk; done.
Qed.

Lemma no_paren_in (p : nat) :
  String.prefix "(" (Regex.slice_from p e) = true → False.
Proof.
  intros Hp%contains_slice. pose proof Hno as Hno'.
  unfold no_operators_found in Hno'.
  apply andb_true_iff in Hno' as [_ Hk]. by rewrite Hp in Hk.
Qed.

Lemma yields_ret {A} (I : LogicParser → Prop) (a : A) (Q : A → Prop) :
  Q a → yields I (ret a) Q.
Proof. by intros HQ self HI. Qed.

Lemma yields_bind {A B} (I : LogicParser → Prop) (c : M A) (k : A → M B)
  (Q : A → Prop) (Q' : B → Prop) :
  yields I c Q → (∀ a, Q a → yields I (k a) Q') → yields I (bind c k) Q'.
Proof.
  intros Hc Hk self HI. unfold bind. specialize (Hc self HI).
  destruct (c self) as [[a|msg|] self']; [|done..].
  destruct Hc as [HI' HQ]. by apply Hk.
Qed.

Lemma next_token_plain : yields (plain e) next_token (λ _, True).
Proof.
  intros self [He _]. unfold next_token. rewrite He.
  set (p := pos self + _).
  destruct (decide _); [done|].
  destruct (Regex.match_paren _) as [group|] eqn:Hparen.
  { split; [|done]. split; [done|]. simpl. case_decide as Hg; [|done].
    subst group. by apply match_paren_open, no_paren_in in Hparen. }
  destruct (Regex.match_keyword _) as [group|] eqn:Hkw.
  { apply match_keyword_prefix in Hkw as [Hp Hg].
    by destruct (no_keyword_in group p Hg Hp). }
  by destruct (Regex.match_identifier _).
Qed.

Lemma term_loop_plain (sub : M Node) (k : nat) (left : Node) (Q : Node → Prop) :
  Q left → yields (plain e) (term_loop sub k left) Q.
Proof.
  intros HQ self [He Htok]. rewrite term_loop_unfold.
  case_decide as Hand; [by rewrite Hand in Htok|done].
Qed.

Lemma expr_loop_plain (sub : M Node) (k : nat) (left : Node) (Q : Node → Prop) :
  Q left → yields (plain e) (expr_loop sub k left) Q.
Proof.
  intros HQ self [He Htok]. rewrite expr_loop_unfold.
  case_decide as Hor; [by rewrite Hor in Htok|done].
Qed.

Lemma factor_plain (n : nat) :
  yields (plain e) (factor n) (λ node, ∃ v, node = IDENTIFIER v).
Proof.
  destruct n as [|n]; intros self HI; [done|]. simpl.
  pose proof HI as [He Htok].
  destruct (current_token self) as [[| | | | |value]|]; try done.
  apply (yields_bind _ _ _ (λ _, True)); [apply next_token_plain| |done].
  intros [] _. apply yields_ret. by exists value.
Qed.

Lemma parse_with_plain (n : nat) :
  yields (plain e) (parse_with n) (λ node, ∃ v, node = IDENTIFIER v).
Proof.
  apply (yields_bind _ _ _ (λ _, True)); [apply next_token_plain|].
  intros [] _. unfold expr, expr_with, term, term_with.
  eapply yields_bind.
  - eapply yields_bind; [apply factor_plain|].
    intros left Hleft. by apply term_loop_plain.
  - intros left Hleft. by apply expr_loop_plain.
Qed.

End OperatorCheck.

(** The operator check of [get_user_input] only turns away expressions that
    the parser rejects or reads as a single identifier: an expression
    without the texts [AND], [OR], [NOT] and without an opening parenthesis
    never parses to a tree with an operator. *)
Theorem operator_check_rejects_only_identifiers (e : string) (tree : Node) :
  no_operators_found e = true → parse e = Return tree →
  ∃ v, tree = IDENTIFIER v.
Proof.
  intros Hno Hparse.
  pose proof (parse_with_plain e Hno (parse_fuel e) (new_parser e)
                ltac:(by split)) as H.
  unfold parse, run_parse in Hparse.
  destruct (parse_with _ _) as [[node|msg|] s1]; simpl in Hparse; simplify_eq.
  by destruct H.
Qed.

Lemma operator_check_rejects_only_identifiers_witness :
  ∃ v, IDENTIFIER "x_1" = IDENTIFIER v.
Proof.
  apply (operator_check_rejects_only_identifiers "x_1 )"); by vm_compute.
Defined.

(** * Placing and drawing the gates of a built circuit *)

Section Positions.

Context {F : Type}.
Variable input_y : nat → F.
Variable mean_y : F → F → F.
Variable vars : list string.

Implicit Types (g a b : Gate.t) (gp : gmap nat (@position F)).

Lemma index_elem (v : string) (l : list string) :
  v ∈ l → ∃ j, index v l = Some j ∧ l !! j = Some v.
Proof.
  induction l as [|y l IH]; intros Hv; [by apply elem_of_nil in Hv|]. simpl.
  case_decide as Hy; [subst; by exists 0|].
  apply elem_of_cons in Hv as [?|Hv]; [done|].
  destruct (IH Hv) as (j & -> & Hj). by exists (S j).
Qed.

Lemma gate_id_in_ids g : Gate.gate_id g ∈ ids g.
Proof.
  unfold ids. destruct (subgates_last g) as [l Hl]. rewrite Hl, fmap_app.
  apply elem_of_app. right. by left.
Qed.

Lemma ids_subgate g g' : g' ∈ Gate.subgates g → Gate.gate_id g' ∈ ids g.
Proof. intros H. unfold ids. by apply list_elem_of_fmap_2. Qed.

Lemma places_input n v : places input_y mean_y vars (Gate.Input n v).
Proof.
  intros x y level gp Hnd Hfresh Hvars.
  pose proof (Hfresh _ (gate_id_in_ids _)) as Hroot.
  cbn [_position_gates]. rewrite Hroot. unfold ids in *. simpl in *.
  destruct (index_elem v vars) as (j & Hj & _); [apply Hvars; by left|].
  rewrite Hj. eexists _, _. split_and!; [done|done|by rewrite lookup_insert_eq| |].
  - intros i Hi. rewrite lookup_insert_ne; [done|]. intros ->. apply Hi. by left.
  - intros g' ->%list_elem_of_singleton. eexists. split_and!;
      [by rewrite lookup_insert_eq|done|].
    intros i v' [= -> ->]. by exists j.
Qed.

Lemma places_not n a :
  places input_y mean_y vars a → places input_y mean_y vars (Gate.Not n a).
Proof.
  intros IHa x y level gp Hnd Hfresh Hvars.
  pose proof (Hfresh _ (gate_id_in_ids _)) as Hroot.
  cbn [_position_gates]. rewrite Hroot. unfold ids in *. simpl in *.
  rewrite fmap_app in Hnd, Hfresh. simpl in *.
  apply NoDup_app in Hnd as (Hnda & Hdisj & _).
  destruct (IHa (x - 2)%Z y (S level) gp Hnda) as (cp & gp1 & -> & Hx & Hid & Hout & Hpl).
  { intros i Hi. apply Hfresh, elem_of_app. by left. }
  { intros v Hv. apply Hvars. rewrite omap_app. apply elem_of_app. by left. }
  assert (Hn : n ∉ Gate.gate_id <$> Gate.subgates a).
  { intros Hin. apply (Hdisj n Hin). by left. }
  eexists _, _. split_and!; [done|simpl; lia|by rewrite lookup_insert_eq| |].
  - intros i Hi. rewrite fmap_app in Hi. apply not_elem_of_app in Hi as [Hia Hin].
    rewrite lookup_insert_ne; [by apply Hout|].
    intros ->. apply Hin. by left.
  - intros g' [Hg' | ->%list_elem_of_singleton]%elem_of_app.
    + destruct (Hpl g' Hg') as (p & Hl & Hrest). exists p. split; [|done].
      rewrite lookup_insert_ne; [done|]. intros ->.
      by apply Hn, list_elem_of_fmap_2.
    + eexists. split_and!; [by rewrite lookup_insert_eq|simpl; lia|done].
Qed.

Lemma places_binary (mk : nat → Gate.t → Gate.t → Gate.t) n a b :
  mk = Gate.And ∨ mk = Gate.Or →
  places input_y mean_y vars a → places input_y mean_y vars b →
  places input_y mean_y vars (mk n a b).
Proof.
  intros [-> | ->] IHa IHb x y level gp Hnd Hfresh Hvars.
  all: pose proof (Hfresh _ (gate_id_in_ids _)) as Hroot.
  all: cbn [_position_gates]; rewrite Hroot; unfold ids in *; simpl in *.
  all: rewrite !fmap_app in Hnd, Hfresh; simpl in *.
  all: apply NoDup_app in Hnd as (Hnda & Hdisja & Hnd').
  all: apply NoDup_app in Hnd' as (Hndb & Hdisjb & _).
  all: destruct (IHa (x - 2)%Z (y + 1)%Z (S level) gp Hnda)
         as (lp & gp1 & -> & Hxa & Hida & Houta & Hpla);
    [intros i Hi; apply Hfresh, elem_of_app; by left
    |intros v Hv; apply Hvars; rewrite omap_app; apply elem_of_app; by left|].
  all: destruct (IHb (x - 2)%Z (y - 1)%Z (S level) gp1 Hndb)
         as (rp & gp2 & -> & Hxb & Hidb & Houtb & Hplb);
    [intros i Hi; rewrite Houta;
       [apply Hfresh; rewrite !elem_of_app; auto
       |intros Hia; apply (Hdisja i Hia); rewrite elem_of_app; auto]
    |intros v Hv; apply Hvars; rewrite !omap_app, !elem_of_app; auto|].
  all: assert (Hna : n ∉ Gate.gate_id <$> Gate.subgates a)
         by (intros Hin; apply (Hdisja n Hin); rewrite elem_of_app; right; by left).
  all: assert (Hnb : n ∉ Gate.gate_id <$> Gate.subgates b)
         by (intros Hin; apply (Hdisjb n Hin); by left).
  all: eexists _, _; split_and!;
         [done|simpl; lia|by rewrite lookup_insert_eq| |].
  all: try (intros i Hi; rewrite !fmap_app, !not_elem_of_app in Hi;
            destruct Hi as (Hia & Hib & Hin);
            rewrite lookup_insert_ne by (intros ->; apply Hin; by left);
            by rewrite Houtb, Houta).
  all: intros g' [Hg' | [Hg' | ->%list_elem_of_singleton]%elem_of_app]%elem_of_app.
  all: try (eexists; split_and!; [by rewrite lookup_insert_eq|simpl; lia|done]).
  all: try (destruct (Hplb g' Hg') as (p & Hl & Hrest); exists p; split; [|done];
            rewrite lookup_insert_ne; [done|];
            intros ->; by apply Hnb, list_elem_of_fmap_2).
  all: destruct (Hpla g' Hg') as (p & Hl & Hrest); exists p; split; [|done];
       rewrite lookup_insert_ne by (intros ->; by apply Hna, list_elem_of_fmap_2);
       rewrite Houtb; [done|];
       intros Hin; apply (Hdisja (Gate.gate_id g'));
         [by apply list_elem_of_fmap_2|rewrite elem_of_app; by left].
Qed.

Lemma position_gates_spec g : places input_y mean_y vars g.
Proof.
  induction g as [n v|n a IHa|n a IHa b IHb|n a IHa b IHb].
  - apply places_input.
  - by apply places_not.
  - apply (places_binary Gate.And); auto.
  - apply (places_binary Gate.Or); auto.
Qed.

End Positions.

Section Drawing.

Context {F : Type}.
Variable gp : gmap nat (@position F).

Implicit Types (g a b : Gate.t).

Lemma draws_input n v : draws gp (Gate.Input n v).
Proof.
  intros drawn calls Hnd Hfresh Hpos.
  pose proof (Hfresh _ (gate_id_in_ids _)) as Hroot.
  destruct (Hpos (Gate.Input n v) ltac:(by left)) as [p Hp].
  cbn [_draw_gate_recursive fst snd Gate.gate_id] in *.
  rewrite decide_False, Hp by done.
  exists [_draw_input p v]. split_and!; [|by simpl; rewrite Hp|done].
  unfold ids. simpl. do 2 f_equal. set_solver.
Qed.

Lemma draws_not n a : draws gp a → draws gp (Gate.Not n a).
Proof.
  intros IHa drawn calls Hnd Hfresh Hpos.
  pose proof (Hfresh _ (gate_id_in_ids _)) as Hroot.
  destruct (Hpos (Gate.Not n a) ltac:(simpl; set_solver)) as [p Hp].
  destruct (Hpos a) as [pa Hpa].
  { simpl. apply elem_of_app. left. destruct (subgates_last a) as [l ->]. set_solver. }
  pose proof (subgates_length_pos a) as Hlen.
  unfold ids in *. simpl in *. rewrite fmap_app in Hnd, Hfresh.
  apply NoDup_app in Hnd as (Hnda & Hdisj & _).
  destruct (IHa drawn calls Hnda) as (ca & Hca & Hat & Hla).
  { intros i Hi. apply Hfresh, elem_of_app. by left. }
  { intros g' Hg'. apply Hpos, elem_of_app. by left. }
  cbn [_draw_gate_recursive fst snd Gate.gate_id].
  rewrite decide_False by done. rewrite Hca. cbn [fst snd]. rewrite Hp, Hpa.
  eexists (ca ++ [_; _]). split_and!.
  - rewrite fmap_app, list_to_set_app_L, <-!app_assoc. simpl.
    do 2 f_equal. set_solver.
  - rewrite omap_app, !fmap_app, Hat. simpl. by rewrite Hp.
  - rewrite !length_app. simpl. lia.
Qed.

Lemma draws_binary (mk : nat → Gate.t → Gate.t → Gate.t) n a b :
  mk = Gate.And ∨ mk = Gate.Or →
  draws gp a → draws gp b → draws gp (mk n a b).
Proof.
  intros [-> | ->] IHa IHb drawn calls Hnd Hfresh Hpos.
  all: pose proof (Hfresh _ (gate_id_in_ids _)) as Hroot.
  all: pose proof (subgates_length_pos a) as Hlena.
  all: pose proof (subgates_length_pos b) as Hlenb.
  all: destruct (Hpos _ ltac:(simpl; rewrite !elem_of_app; right; right; by left))
         as [p Hp].
  all: destruct (Hpos a) as [pa Hpa];
    [simpl; apply elem_of_app; left; destruct (subgates_last a) as [l ->];
     apply elem_of_app; right; by left|].
  all: destruct (Hpos b) as [pb Hpb];
    [simpl; rewrite !elem_of_app; right; left;
     destruct (subgates_last b) as [l ->]; apply elem_of_app; right; by left|].
  all: unfold ids in *; simpl in *; rewrite !fmap_app in Hnd, Hfresh.
  all: apply NoDup_app in Hnd as (Hnda & Hdisja & Hnd').
  all: apply NoDup_app in Hnd' as (Hndb & Hdisjb & _).
  all: destruct (IHa drawn calls Hnda) as (ca & Hca & Hata & Hla);
    [intros i Hi; apply Hfresh, elem_of_app; by left
    |intros g' Hg'; apply Hpos, elem_of_app; by left|].
  all: destruct (IHb (list_to_set (Gate.gate_id <$> Gate.subgates a) ∪ drawn)
                   (calls ++ ca) Hndb) as (cb & Hcb & Hatb & Hlb);
    [intros i Hi [Hia%elem_of_list_to_set|Hid]%elem_of_union;
       [apply (Hdisja i Hia); rewrite elem_of_app; by left
       |apply (Hfresh i); [rewrite !elem_of_app; auto|done]]
    |intros g' Hg'; apply Hpos; rewrite !elem_of_app; auto|].
  all: cbn [_draw_gate_recursive fst snd Gate.gate_id].
  all: rewrite decide_False by done.
  all: unfold ids in *; rewrite Hca, Hcb; cbn [fst snd]; rewrite Hp, Hpa, Hpb.
  all: eexists (ca ++ cb ++ [_; _; _]); split_and!.
  all: try (rewrite !fmap_app, !list_to_set_app_L, <-!app_assoc; simpl;
            do 2 f_equal; set_solver).
  all: try (rewrite !omap_app, !fmap_app, Hata, Hatb; simpl; by rewrite Hp).
  all: rewrite !length_app; simpl; lia.
Qed.

Lemma draw_gate_recursive_spec g : draws gp g.
Proof.
  induction g as [n v|n a IHa|n a IHa b IHb|n a IHa b IHb].
  - apply draws_input.
  - by apply draws_not.
  - apply (draws_binary Gate.And); auto.
  - apply (draws_binary Gate.Or); auto.
Qed.

End Drawing.

Section Visualize.

Context {F : Type}.
Variable input_y : nat → F.
Variable mean_y : F → F → F.

Lemma index_lookup (v : string) (l : list string) (j : nat) :
  index v l = Some j → l !! j = Some v.
Proof.
  revert j; induction l as [|y l IH]; intros j; simpl; [done|].
  case_decide as Hy; [by intros [= <-]; subst|].
  destruct (index v l) as [j'|]; simpl; [|done]. intros [= <-]. by apply IH.
Qed.

(** The two steps of [visualize] on a built circuit. *)
Lemma visualize_built (tree : Node) :
  let c := build tree in
  ∃ pos gp drawn calls,
    _position_gates input_y mean_y (output_gate c) 8 4 (inputs c) 0 ∅
    = Some (pos, gp)
    ∧ _draw_gate_recursive (output_gate c) gp (∅, []) = Some (drawn, calls)
    ∧ visualize input_y mean_y c = Some (gp, calls)
    ∧ placed input_y (inputs c) (output_gate c) gp
    ∧ Some <$> omap drawn_at calls
      = (λ g, gp !! Gate.gate_id g) <$> circuit_gates c
    ∧ length calls = 2 * length (circuit_gates c) - 1.
Proof.
  intros c. destruct (build_spec tree) as (Hshape & Hpost & Hids & Hin).
  fold c in Hshape, Hpost, Hids, Hin.
  destruct (sorted_spec (list_to_set (identifiers tree))) as (_ & _ & Hel & _).
  assert (Hnd : NoDup (ids (output_gate c))).
  { unfold ids. rewrite <-Hpost, Hids. apply NoDup_seq. }
  destruct (position_gates_spec input_y mean_y (inputs c) (output_gate c)
              8%Z 4%Z 0 ∅ Hnd) as (pos & gp & Hpg & _ & _ & _ & Hpl).
  { intros i _. apply lookup_empty. }
  { intros v Hv. rewrite variables_of_shape, Hshape in Hv.
    by rewrite Hin, Hel, elem_of_list_to_set. }
  destruct (draw_gate_recursive_spec gp (output_gate c) ∅ [] Hnd)
    as (calls & Hdraw & Hat & Hlen).
  { intros i _. apply not_elem_of_empty. }
  { intros g' Hg'. destruct (Hpl g' Hg') as (p & Hp & _). by exists p. }
  eexists pos, gp, _, calls. unfold visualize. rewrite Hpg, Hdraw.
  rewrite Hpost. by split_and!.
Qed.

End Visualize.

(** Placing the gates of a built circuit never fails (every variable is
    found in [inputs]): every gate gets a position, whose abscissa is
    [1 + 2 * height], so that every gate stands two units to the right of its
    rightmost operand; an input gate stands at abscissa [1], at the height
    computed from the index of its variable in [inputs]. This holds whatever
    the float operations are. *)
Theorem built_circuit_is_placed {F : Type} (input_y : nat → F)
  (mean_y : F → F → F) (tree : Node) :
  let c := build tree in
  ∃ gp calls,
    visualize input_y mean_y c = Some (gp, calls)
    ∧ ∀ g, g ∈ circuit_gates c →
        ∃ p, gp !! Gate.gate_id g = Some p
             ∧ p.1 = (1 + 2 * height g)%Z
             ∧ ∀ i v, g = Gate.Input i v →
                 ∃ j, inputs c !! j = Some v ∧ p = (1%Z, input_y j).
Proof.
  intros c.
  destruct (visualize_built input_y mean_y tree)
    as (pos & gp & drawn & calls & _ & _ & Hvis & Hpl & _).
  fold c in Hvis, Hpl. exists gp, calls. split; [done|].
  destruct (build_spec tree) as (_ & Hpost & _). fold c in Hpost.
  intros g Hg. rewrite Hpost in Hg.
  destruct (Hpl g Hg) as (p & Hp & Hx & Hinput).
  exists p. split_and!; [done..|].
  intros i v ->. destruct (Hinput i v eq_refl) as (j & Hj & Hy).
  exists j. split; [by apply index_lookup|].
  destruct p as [px py]. simpl in *. by subst.
Qed.

(** Drawing a built circuit never fails (every gate has a position): the
    gates are drawn once each, in the order of the [gates] list, each at its
    position, and one connection is drawn per operand, that is [2n - 1] calls
    for [n] gates. *)
Theorem built_circuit_is_drawn {F : Type} (input_y : nat → F)
  (mean_y : F → F → F) (tree : Node) :
  let c := build tree in
  ∃ gp calls,
    visualize input_y mean_y c = Some (gp, calls)
    ∧ Some <$> omap drawn_at calls
      = (λ g, gp !! Gate.gate_id g) <$> circuit_gates c
    ∧ length (omap drawn_at calls) = length (circuit_gates c)
    ∧ length calls = 2 * length (circuit_gates c) - 1.
Proof.
  intros c.
  destruct (visualize_built input_y mean_y tree)
    as (pos & gp & drawn & calls & _ & _ & Hvis & _ & Hat & Hlen).
  fold c in Hvis, Hat, Hlen. exists gp, calls. split_and!; try done.
  apply (f_equal length) in Hat. by rewrite !length_fmap in Hat.
Qed.

(** The arguments [x], [y] and [level] of [_position_gates] have no effect:
    whatever they are, the call returns the same position and leaves the same
    dictionary (or fails alike). *)
Theorem position_ignores_start {F : Type} (input_y : nat → F)
  (mean_y : F → F → F) (g : Gate.t) (vars : list string) :
  ∀ (x y x' y' : Z) (level level' : nat) (gp : gmap nat (@position F)),
    _position_gates input_y mean_y g x y vars level gp
    = _position_gates input_y mean_y g x' y' vars level' gp.
Proof.
  induction g as [n v|n a IHa|n a IHa b IHb|n a IHa b IHb];
    intros x y x' y' level level' gp; cbn [_position_gates];
    destruct (gp !! _) as [p|]; try done.
  - by rewrite (IHa (x - 2)%Z y (x' - 2)%Z y' (S level) (S level')).
  - rewrite (IHa (x - 2)%Z (y + 1)%Z (x' - 2)%Z (y' + 1)%Z (S level) (S level')).
    destruct (_position_gates _ _ a _ _ _ _ _) as [[lp gp1]|]; [|done].
    by rewrite (IHb (x - 2)%Z (y - 1)%Z (x' - 2)%Z (y' - 1)%Z (S level) (S level')).
  - rewrite (IHa (x - 2)%Z (y + 1)%Z (x' - 2)%Z (y' + 1)%Z (S level) (S level')).
    destruct (_position_gates _ _ a _ _ _ _ _) as [[lp gp1]|]; [|done].
    by rewrite (IHb (x - 2)%Z (y - 1)%Z (x' - 2)%Z (y' - 1)%Z (S level) (S level')).
Qed.

(** * Reading one token *)

Section OneToken.

Lemma slice_from_add (p n : nat) (e : string) :
  Regex.slice_from (p + n) e = Regex.slice_from n (Regex.slice_from p e).
Proof.
  revert e; induction p as [|p IH]; intros e; [done|].
  destruct e as [|c e]; simpl; [by destruct n|]. apply IH.
Qed.

(** A parser object whose text from [pos] on is [n] blanks followed by
    [text]: the scan may as well start at [text]. *)
Lemma next_token_after_blanks (e : string) (p n : nat) (text : string)
  (t : option Token) :
  Regex.slice_from p e = blanks n +:+ text →
  next_token (mkLogicParser e p t) = next_token (mkLogicParser e (p + n) t)
  ∧ Regex.slice_from (p + n) e = text.
Proof.
  intros Hslice.
  assert (Htext : Regex.slice_from (p + n) e = text).
  { rewrite slice_from_add, Hslice.
    pose proof (slice_from_append (blanks n) 0 text) as H.
    by rewrite length_blanks, Nat.add_0_r in H. }
  split; [|done]. apply next_token_skip_blanks. by rewrite Htext.
Qed.

Lemma ident_tail_all (r : string) :
  all_ident_chars r = true → Regex.ident_tail r = r.
Proof.
  induction r as [|c r IH]; [done|]. simpl.
  intros [Hc Hr]%andb_true_iff. by rewrite Hc, IH.
Qed.

Lemma ident_start_not_special (c : ascii) :
  Regex.ident_start c = true →
  c ≠ " "%char ∧ c ≠ "("%char ∧ c ≠ ")"%char ∧ Regex.ident_char c = true.
Proof.
  intros H. unfold Regex.ident_char. rewrite H.
  split_and!; try done; by intros ->.
Qed.

Lemma next_token_word
  (e : string) (p n : nat) (v y : string) (t : option Token) :
  Regex.slice_from p e = blanks n +:+ v +:+ y →
  is_identifier v = true → Regex.match_keyword v = None →
  match y with String c _ => Regex.ident_char c = false | EmptyString => True end →
  next_token (mkLogicParser e p t)
  = (Return (),
     mkLogicParser e (p + n + String.length v) (Some (TOK_IDENTIFIER v))).
Proof.
  intros Hslice Hv Hkw Hy.
  destruct (next_token_after_blanks e p n (v +:+ y) t Hslice) as [-> Htext].
  destruct v as [|c r]; [done|]. simpl in Hv.
  apply andb_true_iff in Hv as [Hc Hr].
  destruct (ident_start_not_special c Hc) as (Hsp & Hl & Hr' & _).
  pose proof (length_slice_from (p + n) e) as Hlen. rewrite Htext in Hlen.
  unfold next_token; simpl. rewrite Htext.
  change (String c r +:+ y) with (String c (r +:+ y)) in *.
  rewrite leading_spaces_cons, (decide_False (P := c = " "%char)) by done.
  rewrite Nat.add_0_r, decide_False by (simpl in Hlen; lia).
  rewrite Htext.
  change (String c (r +:+ y)) with (String c r +:+ y).
  rewrite match_paren_append, (match_keyword_append y Hy), Hkw,
    (match_identifier_append y Hy) by done.
  assert (Regex.match_paren (String c r) = None) as ->.
  { destruct c as [[] [] [] [] [] [] [] []]; done. }
  simpl. by rewrite Hc, (ident_tail_all r Hr).
Qed.

End OneToken.

(** An identifier that does not begin with [AND], [OR] or [NOT] is read as
    one token: when the text at the scan position is blanks, then a word [v]
    of the shape [[a-zA-Z_][a-zA-Z0-9_]*], then nothing or a character that
    is no letter, digit or underscore, [next_token] yields the identifier
    token [v] and stops right after it. *)
Theorem next_token_reads_identifier
  (e : string) (p n : nat) (v y : string) (t : option Token) :
  Regex.slice_from p e = blanks n +:+ v +:+ y →
  is_identifier v = true → Regex.match_keyword v = None →
  match y with String c _ => Regex.ident_char c = false | EmptyString => True end →
  next_token (mkLogicParser e p t)
  = (Return (),
     mkLogicParser e (p + n + String.length v) (Some (TOK_IDENTIFIER v))).
Proof. apply next_token_word. Qed.

Lemma next_token_reads_identifier_witness :
  next_token (mkLogicParser "x OR  BAND_1)" 4 (Some TOK_OR))
  = (Return (),
     mkLogicParser "x OR  BAND_1)" (4 + 2 + String.length "BAND_1")
       (Some (TOK_IDENTIFIER "BAND_1"))).
Proof.
  apply (next_token_reads_identifier "x OR  BAND_1)" 4 2 "BAND_1" ")");
    by vm_compute.
Defined.

Section RoundTrip.

Lemma positioned_head (s : LogicParser) (toks : list Token) :
  positioned s toks → current_token s = head toks.
Proof. destruct toks; simpl; [done|]. by intros [-> _]. Qed.

Lemma length_unlex (toks : list Token) :
  length toks ≤ String.length (unlex toks).
Proof.
  induction toks as [|t ts IH]; simpl; [done|].
  rewrite !length_append. simpl. lia.
Qed.

Lemma append_empty_r (s : string) : s +:+ "" = s.
Proof.
  induction s as [|c s IH]; [done|].
  change (String c s +:+ "") with (String c (s +:+ "")). by rewrite IH.
Qed.

Lemma next_token_blank_end (e : string) (p n : nat) (t : option Token) :
  Regex.slice_from p e = blanks n →
  ∃ s', next_token (mkLogicParser e p t) = (Return (), s')
        ∧ current_token s' = None.
Proof.
  intros Hslice.
  destruct (next_token_after_blanks e p n "" t) as [-> Htext].
  { by rewrite Hslice, append_empty_r. }
  pose proof (length_slice_from (p + n) e) as Hlen. rewrite Htext in Hlen.
  unfold next_token; simpl. rewrite Htext. simpl.
  rewrite decide_True by (simpl in Hlen; lia). by eexists.
Qed.

Lemma next_token_reads (e : string) (p n : nat) (tok : Token) (w : string)
  (t : option Token) :
  Regex.slice_from p e = blanks n +:+ token_text tok +:+ String " " w →
  (∀ v, tok = TOK_IDENTIFIER v → clean v) →
  next_token (mkLogicParser e p t)
  = (Return (),
     mkLogicParser e (p + n + String.length (token_text tok)) (Some tok)).
Proof.
  intros Hslice Hclean.
  destruct tok as [| | | | |v];
    try (destruct (next_token_after_blanks e p n _ t Hslice) as [-> Htext];
         pose proof (length_slice_from (p + n) e) as Hlen;
         rewrite Htext in Hlen;
         unfold next_token; cbn [expression pos current_token];
         rewrite Htext;
         cbv [token_text String.append] in Htext, Hlen |- *;
         rewrite leading_spaces_cons, (decide_False (P := _ = " "%char)) by done; rewrite Nat.add_0_r;
         (rewrite decide_False by (simpl in Hlen; lia)); by rewrite Htext).
  destruct (Hclean v eq_refl) as [Hv Hkw].
  by apply (next_token_word e p n v (String " " w)).
Qed.

Lemma slice_after (e : string) (p : nat) (a b : string) :
  Regex.slice_from p e = a +:+ b →
  Regex.slice_from (p + String.length a) e = b.
Proof.
  intros Hslice. rewrite slice_from_add, Hslice.
  pose proof (slice_from_append a 0 b) as H.
  by rewrite Nat.add_0_r in H.
Qed.

Lemma append_assoc (a b c : string) : (a +:+ b) +:+ c = a +:+ (b +:+ c).
Proof.
  induction a as [|x a IH]; [done|].
  change (String x a +:+ b) with (String x (a +:+ b)).
  change (String x (a +:+ b) +:+ c) with (String x ((a +:+ b) +:+ c)).
  by rewrite IH.
Qed.

Lemma positioned_unlex (toks : list Token) :
  (∀ v, TOK_IDENTIFIER v ∈ toks → clean v) →
  ∀ (e : string) (p n : nat) (t : option Token),
    Regex.slice_from p e = blanks n +:+ unlex toks →
    ∃ s', next_token (mkLogicParser e p t) = (Return (), s')
          ∧ positioned s' toks.
Proof.
  induction toks as [|tok ts IH]; intros Hclean e p n t Hslice; simpl in *.
  - apply (next_token_blank_end e p n). by rewrite Hslice, append_empty_r.
  - change (" " +:+ unlex ts) with (String " " (unlex ts)) in Hslice.
    eexists; split.
    { apply (next_token_reads e p n tok (unlex ts)); [done|].
      intros v ->. apply Hclean. left. }
    split; [done|].
    apply (IH ltac:(intros v Hv; apply Hclean; by right) e _ 1).
    replace (p + n + String.length (token_text tok))
      with (p + String.length (blanks n +:+ token_text tok))
      by (rewrite length_append, length_blanks; lia).
    apply slice_after. by rewrite append_assoc.
Qed.

Lemma bind_return {A B} (m : M A) (k : A → M B) (s s' : LogicParser) (a : A) :
  m s = (Return a, s') → bind m k s = k a s'.
Proof. unfold bind. by intros ->. Qed.

Lemma and_spine_le (t : Node) : and_spine t ≤ length (tokens 1 t).
Proof.
  induction t as [v|a IHa|a IHa b IHb|a IHa b IHb]; simpl; try lia.
  rewrite length_app; simpl; lia.
Qed.

Lemma or_spine_le (t : Node) : or_spine t ≤ length (tokens 0 t).
Proof.
  induction t as [v|a IHa|a IHa b IHb|a IHa b IHb]; simpl; try lia.
  rewrite length_app; simpl; lia.
Qed.

Lemma term_returns (t : Node) :
  reads_term t →
  ∀ (n : nat) (s : LogicParser) (rest : list Token),
    length (tokens 1 t) < n →
    head rest ≠ Some TOK_AND →
    positioned s (tokens 1 t ++ rest) →
    ∃ s', term n s = (Return t, s') ∧ positioned s' rest.
Proof.
  intros Ht n s rest Hn Hrest Hs.
  pose proof (and_spine_le t) as Hle.
  destruct (Ht n (n - and_spine t) s rest Hn Hs) as (s' & Heq & Hs').
  exists s'; split; [|done]. unfold term.
  replace (and_spine t + (n - and_spine t)) with n in Heq by lia.
  rewrite Heq, term_loop_unfold, decide_False; [done|].
  by rewrite (positioned_head _ _ Hs').
Qed.

Lemma expr_returns (t : Node) :
  reads_expr t →
  ∀ (n : nat) (s : LogicParser) (rest : list Token),
    length (tokens 0 t) < n →
    head rest ≠ Some TOK_AND → head rest ≠ Some TOK_OR →
    positioned s (tokens 0 t ++ rest) →
    ∃ s', expr n s = (Return t, s') ∧ positioned s' rest.
Proof.
  intros Ht n s rest Hn Hand Hor Hs.
  pose proof (or_spine_le t) as Hle.
  destruct (Ht n (n - or_spine t) s rest Hn Hand Hs) as (s' & Heq & Hs').
  exists s'; split; [|done]. unfold expr.
  replace (or_spine t + (n - or_spine t)) with n in Heq by lia.
  rewrite Heq, expr_loop_unfold, decide_False; [done|].
  by rewrite (positioned_head _ _ Hs').
Qed.

(** A tree that [factor] reads as it stands is read by the loops without an
    iteration. *)
Lemma reads_term_of_factor (t : Node) :
  tokens 1 t = tokens 2 t → and_spine t = 0 →
  reads_factor t → reads_term t.
Proof.
  intros Htok Hspine Hf n k s rest Hn Hs. rewrite Htok in *.
  destruct (Hf n s rest Hn Hs) as (s' & Heq & Hs').
  exists s'; split; [|done]. rewrite Hspine. unfold term_with.
  by rewrite (bind_return _ _ _ _ _ Heq).
Qed.

Lemma reads_expr_of_term (t : Node) :
  tokens 0 t = tokens 1 t → or_spine t = 0 →
  reads_term t → reads_expr t.
Proof.
  intros Htok Hspine Ht n k s rest Hn Hrest Hs. rewrite Htok in *.
  destruct (term_returns t Ht n s rest Hn Hrest Hs) as (s' & Heq & Hs').
  exists s'; split; [|done]. rewrite Hspine. unfold expr_with.
  by rewrite (bind_return _ _ _ _ _ Heq).
Qed.

Lemma reads_factor_parens (t : Node) :
  tokens 2 t = TOK_LPAREN :: tokens 0 t ++ [TOK_RPAREN] →
  reads_expr t → reads_factor t.
Proof.
  intros Htok He n s rest Hn Hs. rewrite Htok in *.
  simpl in Hn. rewrite length_app in Hn. simpl in Hn.
  simpl in Hs. rewrite <- app_assoc in Hs. simpl in Hs.
  destruct Hs as (Hcur & s1 & Hnext & Hs1).
  destruct n as [|n]; [lia|].
  destruct (expr_returns t He n s1 (TOK_RPAREN :: rest)) as (s2 & Heq & Hs2);
    [lia|done|done|done|].
  destruct Hs2 as (Hcur2 & s3 & Hnext3 & Hs3).
  exists s3; split; [|done].
  simpl. rewrite Hcur.
  rewrite (bind_return _ _ _ _ _ Hnext).
  change (expr_with (term_with (factor n) n) n) with (expr n).
  rewrite (bind_return _ _ _ _ _ Heq). rewrite Hcur2.
  by rewrite (bind_return _ _ _ _ _ Hnext3).
Qed.

Lemma reads_tree (t : Node) : reads_factor t ∧ reads_term t ∧ reads_expr t.
Proof.
  induction t as [v|a IHa|a IHa b IHb|a IHa b IHb].
  - assert (reads_factor (IDENTIFIER v)) as Hf.
    { intros n s rest Hn (Hcur & s' & Hnext & Hs'). simpl in Hn.
      destruct n as [|n]; [lia|]. exists s'; split; [|done].
      simpl. rewrite Hcur. by rewrite (bind_return _ _ _ _ _ Hnext). }
    assert (reads_term (IDENTIFIER v)) as Ht
      by by apply reads_term_of_factor.
    split_and!; [done|done|]. by apply reads_expr_of_term.
  - destruct IHa as (Hfa & _ & _).
    assert (reads_factor (NOT a)) as Hf.
    { intros n s rest Hn (Hcur & s1 & Hnext & Hs1). simpl in Hn.
      destruct n as [|n]; [lia|].
      destruct (Hfa n s1 rest ltac:(lia) Hs1) as (s' & Heq & Hs').
      exists s'; split; [|done]. simpl. rewrite Hcur.
      rewrite (bind_return _ _ _ _ _ Hnext).
      by rewrite (bind_return _ _ _ _ _ Heq). }
    assert (reads_term (NOT a)) as Ht
      by by apply reads_term_of_factor.
    split_and!; [done|done|]. by apply reads_expr_of_term.
  - destruct IHa as (_ & Hta & _), IHb as (Hfb & _ & _).
    assert (reads_term (AND a b)) as Ht.
    { intros n k s rest Hn Hs. simpl in Hn, Hs.
      rewrite length_app in Hn. simpl in Hn.
      rewrite <- app_assoc in Hs. simpl in Hs.
      destruct (Hta n (S k) s (TOK_AND :: tokens 2 b ++ rest) ltac:(lia) Hs)
        as (s1 & Heq & Hcur1 & s2 & Hnext & Hs2).
      destruct (Hfb n s2 rest ltac:(lia) Hs2) as (s3 & Heqb & Hs3).
      exists s3; split; [|done].
      replace (and_spine (AND a b) + k) with (and_spine a + S k)
        by (simpl; lia).
      rewrite Heq, term_loop_unfold, decide_True by done.
      rewrite (bind_return _ _ _ _ _ Hnext).
      by rewrite (bind_return _ _ _ _ _ Heqb). }
    assert (reads_expr (AND a b)) as He by by apply reads_expr_of_term.
    split_and!; [|done|done]. by apply reads_factor_parens.
  - destruct IHa as (_ & _ & Hea), IHb as (_ & Htb & _).
    assert (reads_expr (OR a b)) as He.
    { intros n k s rest Hn Hrest Hs. simpl in Hn, Hs.
      rewrite length_app in Hn. simpl in Hn.
      rewrite <- app_assoc in Hs. simpl in Hs.
      destruct (Hea n (S k) s (TOK_OR :: tokens 1 b ++ rest) ltac:(lia)
                  ltac:(done) Hs)
        as (s1 & Heq & Hcur1 & s2 & Hnext & Hs2).
      destruct (term_returns b Htb n s2 rest ltac:(lia) Hrest Hs2)
        as (s3 & Heqb & Hs3).
      exists s3; split; [|done].
      replace (or_spine (OR a b) + k) with (or_spine a + S k)
        by (simpl; lia).
      rewrite Heq, expr_loop_unfold, decide_True by done.
      rewrite (bind_return _ _ _ _ _ Hnext).
      by rewrite (bind_return _ _ _ _ _ Heqb). }
    assert (reads_factor (OR a b)) as Hf by by apply reads_factor_parens.
    split_and!; [done| |done]. by apply reads_term_of_factor.
Qed.

Lemma elem_of_parens (b : bool) (toks : list Token) (v : string) :
  TOK_IDENTIFIER v ∈ parens b toks → TOK_IDENTIFIER v ∈ toks.
Proof.
  destruct b; simpl; [|done].
  rewrite elem_of_cons, elem_of_app, list_elem_of_singleton.
  by intros [?|[?|?]].
Qed.

Lemma clean_tokens (lvl : nat) (t : Node) (v : string) :
  TOK_IDENTIFIER v ∈ tokens lvl t → v ∈ identifiers t.
Proof.
  revert lvl; induction t as [w|a IHa|a IHa b IHb|a IHa b IHb];
    intros lvl; cbn [tokens identifiers].
  - intros [= ->]%list_elem_of_singleton. left.
  - intros [?|?]%elem_of_cons; [done|eauto].
  - intros H%elem_of_parens. rewrite elem_of_app.
    apply elem_of_app in H as [H|[H|H]%elem_of_cons]; [eauto|done|eauto].
  - intros H%elem_of_parens. rewrite elem_of_app.
    apply elem_of_app in H as [H|[H|H]%elem_of_cons]; [eauto|done|eauto].
Qed.

Lemma parse_of_render (t : Node) :
  clean_node t → parse (render t) = Return t.
Proof.
  intros Hclean. unfold parse, run_parse, parse_with, render.
  set (e := unlex (tokens 0 t)).
  destruct (positioned_unlex (tokens 0 t)
              ltac:(intros v Hv%clean_tokens; by apply Hclean) e 0 0 None)
    as (s1 & Hnext & Hs1); [done|].
  rewrite <- (app_nil_r (tokens 0 t)) in Hs1.
  destruct (reads_tree t) as (_ & _ & He).
  destruct (expr_returns t He (parse_fuel e) s1 [] ) as (s2 & Heq & _);
    [|done|done|done|].
  { unfold parse_fuel, e. pose proof (length_unlex (tokens 0 t)). lia. }
  change (new_parser e) with (mkLogicParser e 0 None).
  rewrite (bind_return _ _ _ _ _ Hnext). by rewrite Heq.
Qed.

Lemma ident_tail_stop (s : string) :
  ∃ post, s = Regex.ident_tail s +:+ post
          ∧ all_ident_chars (Regex.ident_tail s) = true
          ∧ match post with
            | String c _ => Regex.ident_char c = false
            | EmptyString => True
            end.
Proof.
  induction s as [|c s (post & Hpost & Hall & Hstop)]; simpl.
  - by exists "".
  - destruct (Regex.ident_char c) eqn:Hc.
    + exists post. split_and!; [|by simpl; rewrite Hc|done].
      change (String c (Regex.ident_tail s) +:+ post)
        with (String c (Regex.ident_tail s +:+ post)).
      by rewrite <- Hpost.
    + by exists (String c s).
Qed.

Lemma match_identifier_clean (rest group : string) :
  Regex.match_keyword rest = None →
  Regex.match_identifier rest = Some group → clean group.
Proof.
  destruct rest as [|c s]; simpl; [done|].
  destruct (Regex.ident_start c) eqn:Hc; [|done].
  intros Hkw [= <-].
  destruct (ident_tail_stop s) as (post & Hpost & Hall & Hstop).
  split; [by simpl; rewrite Hc|].
  rewrite <- (match_keyword_append post Hstop).
  change (String c (Regex.ident_tail s) +:+ post)
    with (String c (Regex.ident_tail s +:+ post)).
  by rewrite <- Hpost.
Qed.

Lemma next_token_clean : yields clean_token next_token (λ _, True).
Proof.
  intros self _. unfold next_token.
  destruct (decide _); [done|].
  destruct (Regex.match_paren _) as [group|] eqn:Hparen.
  { split; [|done]. intros v. simpl. by case_decide. }
  destruct (Regex.match_keyword _) as [group|] eqn:Hkw.
  { split; [|done]. intros v. simpl. intros [= Hv].
    by destruct (match_keyword_spec _ _ Hkw) as [_ Hno], (Hno v). }
  destruct (Regex.match_identifier _) as [group|] eqn:Hid; [|done].
  split; [|done]. intros v [= <-]. by apply (match_identifier_clean _ _ Hkw).
Qed.

Lemma term_loop_clean (sub : M Node) :
  yields clean_token sub clean_node →
  ∀ (k : nat) (left : Node),
    clean_node left → yields clean_token (term_loop sub k left) clean_node.
Proof.
  intros Hsub k; induction k as [|k IH]; intros left Hleft self HI;
    rewrite term_loop_unfold; case_decide; try done.
  apply (yields_bind _ _ _ (λ _, True)); [apply next_token_clean| |done].
  intros [] _. apply (yields_bind _ _ _ clean_node); [done|].
  intros right_node Hright. apply IH.
  intros v. simpl. rewrite elem_of_app. intros [?|?]; auto.
Qed.

Lemma expr_loop_clean (sub : M Node) :
  yields clean_token sub clean_node →
  ∀ (k : nat) (left : Node),
    clean_node left → yields clean_token (expr_loop sub k left) clean_node.
Proof.
  intros Hsub k; induction k as [|k IH]; intros left Hleft self HI;
    rewrite expr_loop_unfold; case_decide; try done.
  apply (yields_bind _ _ _ (λ _, True)); [apply next_token_clean| |done].
  intros [] _. apply (yields_bind _ _ _ clean_node); [done|].
  intros right_node Hright. apply IH.
  intros v. simpl. rewrite elem_of_app. intros [?|?]; auto.
Qed.

Lemma factor_clean (n : nat) : yields clean_token (factor n) clean_node.
Proof.
  induction n as [|n IH]; intros self HI; [done|]. simpl.
  destruct (current_token self) as [[| | | | |value]|] eqn:Htok; try done.
  - apply (yields_bind _ _ _ (λ _, True)); [apply next_token_clean| |done].
    intros [] _. apply (yields_bind _ _ _ clean_node).
    { apply (yields_bind _ _ _ clean_node).
      - apply (yields_bind _ _ _ clean_node); [done|].
        intros left Hleft. by apply term_loop_clean.
      - intros left Hleft. apply expr_loop_clean; [|done].
        apply (yields_bind _ _ _ clean_node); [done|].
        intros left' Hleft'. by apply term_loop_clean. }
    intros node Hnode self' HI'.
    destruct (current_token self') as [[]|]; try done.
    apply (yields_bind _ _ _ (λ _, True)); [apply next_token_clean| |done].
    intros [] _. by apply yields_ret.
  - apply (yields_bind _ _ _ (λ _, True)); [apply next_token_clean| |done].
    intros [] _. apply (yields_bind _ _ _ clean_node); [done|].
    intros right_node Hright. by apply yields_ret.
  - apply (yields_bind _ _ _ (λ _, True)); [apply next_token_clean| |done].
    intros [] _. apply yields_ret.
    intros v [= ->]%list_elem_of_singleton. by apply HI.
Qed.

Lemma parse_clean (e : string) (tree : Node) :
  parse e = Return tree → clean_node tree.
Proof.
  unfold parse, run_parse, parse_with.
  assert (yields clean_token (next_token >> expr (parse_fuel e)) clean_node)
    as Hy.
  { apply (yields_bind _ _ _ (λ _, True)); [apply next_token_clean|].
    intros [] _. unfold expr, expr_with, term, term_with.
    apply (yields_bind _ _ _ clean_node).
    - apply (yields_bind _ _ _ clean_node); [apply factor_clean|].
      intros left Hleft. apply term_loop_clean; [apply factor_clean|done].
    - intros left Hleft. apply expr_loop_clean; [|done].
      apply (yields_bind _ _ _ clean_node); [apply factor_clean|].
      intros left' Hleft'. apply term_loop_clean; [apply factor_clean|done]. }
  specialize (Hy (new_parser e) ltac:(done)).
  destruct (bind _ _ _) as [[a| |] s']; simpl; try done.
  intros [= <-]. by destruct Hy.
Qed.

End RoundTrip.

(** Every syntax tree is the parse of an expression: written with a blank
    after each token and with parentheses only around an OR that is an
    operand of AND or NOT or the right operand of OR, and around an AND that
    is the operand of NOT or the right operand of AND, a tree whose names the
    scanner reads as identifiers parses to itself. So [parse] gives NOT
    precedence over AND and AND over OR, groups AND and OR to the left, and
    lets parentheses override both. *)
Theorem parse_render (t : Node) :
  (∀ v, v ∈ identifiers t → clean v) → parse (render t) = Return t.
Proof. apply parse_of_render. Qed.

Lemma parse_render_witness :
  render (AND (OR (IDENTIFIER "a") (IDENTIFIER "b"))
              (NOT (AND (IDENTIFIER "c") (IDENTIFIER "d"))))
  = "( a OR b ) AND NOT ( c AND d ) "
  ∧ parse "( a OR b ) AND NOT ( c AND d ) "
    = Return (AND (OR (IDENTIFIER "a") (IDENTIFIER "b"))
                  (NOT (AND (IDENTIFIER "c") (IDENTIFIER "d")))).
Proof.
  split; [reflexivity|].
  apply (parse_render
           (AND (OR (IDENTIFIER "a") (IDENTIFIER "b"))
                (NOT (AND (IDENTIFIER "c") (IDENTIFIER "d"))))).
  intros v. simpl. rewrite !elem_of_cons, elem_of_nil.
  intros [-> | [-> | [-> | [-> | []]]]]; by vm_compute.
Defined.

(** No name in a tree that [parse] returns begins with AND, OR or NOT: the
    scanner tries the keywords before the identifiers, at every position. *)
Theorem parsed_identifiers_are_no_keywords (e : string) (tree : Node)
  (v : string) :
  parse e = Return tree → v ∈ identifiers tree →
  Regex.match_keyword v = None.
Proof. intros Hparse Hv. by apply (parse_clean e tree Hparse). Qed.

Lemma parsed_identifiers_are_no_keywords_witness :
  Regex.match_keyword "xOR" = None.
Proof.
  apply (parsed_identifiers_are_no_keywords "NOT xOR"
           (NOT (IDENTIFIER "xOR")) "xOR"); [by vm_compute|].
  simpl. left.
Defined.

(** An expression that [parse] accepts can be written back from its tree:
    the rewritten expression is accepted too and parses to the same tree. *)
Theorem parse_render_parse (e : string) (tree : Node) :
  parse e = Return tree → parse (render tree) = Return tree.
Proof. intros Hparse. by apply parse_of_render, (parse_clean e). Qed.

Lemma parse_render_parse_witness :
  parse (render (OR (AND (IDENTIFIER "a") (NOT (IDENTIFIER "b")))
                    (IDENTIFIER "c")))
  = Return (OR (AND (IDENTIFIER "a") (NOT (IDENTIFIER "b")))
               (IDENTIFIER "c")).
Proof.
  apply (parse_render_parse "((a)AND NOT b)   OR(c)"). by vm_compute.
Defined.
